(** * Gene perturbation cascade: a shallow embedding of [gene_cascade.py]

    The development embeds the two functions of [src/gene_cascade.py],
    [get_total_influence] and [compute_gene_effect], together with the part
    of the [igraph] interface they use, and proves the properties the
    specification states about them.

    Numbers.  The program computes with Python floats; the specification
    speaks of real numbers.  Levels, weights and products are rationals
    ([Q]) here, compared with [Qeq] ([==]); rounding is not modelled.
    Depths are Python integers, hence [Z].

    Errors.  A Python call either returns or raises; [outcome] records
    which, and the [for] loops thread it, so that a raised exception leaves
    the loop at once. *)

From Stdlib Require Import QArith ZArith List Lia Lqa.
From stdpp Require Import gmap strings list fin_maps.
From Equations Require Import Equations.

Local Open Scope Q_scope.

(** ** Exceptions *)

Inductive exn : Set :=
| InternalError   (* igraph.InternalError: raised by the C core *)
| ValueError      (* raised by [VertexSeq.find] when nothing matches *)
| KeyError.       (* a missing name or attribute *)

Inductive outcome (A : Type) : Type :=
| Returns (a : A)
| Raises (e : exn).
Arguments Returns {A} a.
Arguments Raises {A} e.

#[global] Instance outcome_ret : MRet outcome := fun A a => Returns a.
#[global] Instance outcome_bind : MBind outcome := fun A B f m =>
  match m with
  | Returns a => f a
  | Raises e => Raises e
  end.

(** ** The graph, as [igraph] presents it

    Vertices are the indices [0 .. n-1] and carry a [name]; edges are
    numbered by their position and carry a [weight].  Parallel edges are
    representable, as they are in an [ig.Graph]. *)

Record Edge : Type := mkEdge {
  e_source : nat;
  e_target : nat;
  weight : Q
}.

Record Graph : Type := mkGraph {
  vs : list string;    (* vs[i]["name"] *)
  es : list Edge       (* es[eid] *)
}.

Definition vcount (G : Graph) : nat := length (vs G).

(** [G.successors(v)]: the head of every edge leaving [v], one entry per
    edge (a vertex reached by two parallel edges is listed twice).  The
    order in which igraph lists them is not part of its contract; the sums
    below do not depend on it. *)
Definition successors (G : Graph) (v : nat) : list nat :=
  map e_target (List.filter (fun e => Nat.eqb (e_source e) v) (es G)).

(** The id of the last edge of [l] (ids counted from [i]) that goes from
    [v] to [w]. *)
Fixpoint find_eid (l : list Edge) (v w : nat) (i : nat) : option nat :=
  match l with
  | [] => None
  | e :: l' =>
      match find_eid l' v w (S i) with
      | Some j => Some j
      | None =>
          if (Nat.eqb (e_source e) v && Nat.eqb (e_target e) w)%bool then Some i
          else None
      end
  end.

(** [G.get_eid(v, w)]: the id of one edge from [v] to [w]; igraph raises
    [InternalError] when there is none.  Among parallel edges a single id
    is returned: igraph's edge index lists the edges of one ordered pair by
    decreasing id and the lookup stops at the first of them, so the edge
    retrieved is the one of highest id. *)
Definition get_eid (G : Graph) (v w : nat) : outcome nat :=
  match find_eid (es G) v w 0 with
  | Some i => Returns i
  | None => Raises InternalError
  end.

(** [G.es[eid]['weight']] *)
Definition es_weight (G : Graph) (eid : nat) : outcome Q :=
  match es G !! eid with
  | Some e => Returns (weight e)
  | None => Raises KeyError
  end.

Fixpoint index_of (name : string) (l : list string) (i : nat) : option nat :=
  match l with
  | [] => None
  | x :: l' => if String.eqb x name then Some i else index_of name l' (S i)
  end.

(** [G.vs.find(name=...).index]: the first vertex of that name;
    [ValueError] when there is none. *)
Definition vs_find (G : Graph) (name : string) : outcome nat :=
  match index_of name (vs G) 0 with
  | Some i => Returns i
  | None => Raises ValueError
  end.

(** [ig.Graph.DictList(vertices, edges, directed=True)]: vertex [i] is the
    [i]-th name, edge [k] is the [k]-th triple with its endpoints resolved
    by name.  The endpoint names handed over by [compute_gene_effect] are
    always among the vertices; for a name that is not, construction fails
    (the specification's ConstructionError, a [KeyError] here). *)
Definition resolve (names : list string) (name : string) : outcome nat :=
  match index_of name names 0 with
  | Some i => Returns i
  | None => Raises KeyError
  end.

Fixpoint resolve_edges (names : list string) (edge_list : list (string * string * Q))
  : outcome (list Edge) :=
  match edge_list with
  | [] => Returns []
  | (source, target, w) :: rest =>
      s ← resolve names source;
      t ← resolve names target;
      edges ← resolve_edges names rest;
      Returns (mkEdge s t w :: edges)
  end.

Definition DictList (names : list string) (edge_list : list (string * string * Q))
  : outcome Graph :=
  edges ← resolve_edges names edge_list;
  Returns (mkGraph names edges).

(** ** [get_total_influence]

    The recursion of the source, with its own depth test; it is accepted
    because [max_depth + 1 - current_depth] decreases at the recursive
    call, which is made only when [current_depth <= max_depth]. *)

Equations? get_total_influence (G : Graph) (current_gene target_gene : nat)
    (current_path_product : Q) (max_depth current_depth : Z) : outcome Q
    by wf (Z.to_nat (max_depth + 1 - current_depth)) lt :=
  get_total_influence G current_gene target_gene current_path_product
                      max_depth current_depth
    with Z_gt_dec current_depth max_depth => {
    | left _ => Returns 0
    | right _ =>
        fold_left
          (fun (acc : outcome Q) (neighbor_gene : nat) =>
             total_influence ← acc;
             edge_id ← get_eid G current_gene neighbor_gene;
             w ← es_weight G edge_id;
             let new_path_product := current_path_product * w in
             let total_influence :=
               if Nat.eqb neighbor_gene target_gene
               then total_influence + new_path_product
               else total_influence in
             r ← get_total_influence G neighbor_gene target_gene
                   new_path_product max_depth (current_depth + 1);
             Returns (total_influence + r))
          (successors G current_gene) (Returns 0) }.
Proof. lia. Qed.

(** ** [compute_gene_effect] *)

(** The set of all gene names: the keys of [initial_levels], then both
    endpoints of every edge. *)
Definition all_gene_names (edge_list : list (string * string * Q))
    (initial_levels : gmap string Q) : gset string :=
  fold_left (fun (s : gset string) '(source, target, _) => (s ∪ {[source]}) ∪ {[target]})
            edge_list (dom initial_levels).

Definition compute_gene_effect (edge_list : list (string * string * Q))
    (initial_levels : gmap string Q) (source_gene : string)
    (modified_level : Q) (max_depth : Z) : outcome (gmap string Q) :=
  let names := elements (all_gene_names edge_list initial_levels) in
  G ← DictList names edge_list;
  let initial_shock := modified_level - default 0 (initial_levels !! source_gene) in
  let new_levels := <[source_gene := modified_level]> initial_levels in
  source_vid ← vs_find G source_gene;
  fold_left
    (fun (acc : outcome (gmap string Q)) (target_gene : string) =>
       new_levels ← acc;
       if decide (target_gene = source_gene) then Returns new_levels
       else
         match vs_find G target_gene with
         | Raises InternalError => Returns new_levels
         | Raises e => Raises e
         | Returns target_vid =>
             total_influence_factor ←
               get_total_influence G source_vid target_vid 1 max_depth 1;
             let initial_level_target := default 0 (initial_levels !! target_gene) in
             let change := initial_shock * total_influence_factor in
             Returns (<[target_gene := initial_level_target + change]> new_levels)
         end)
    names (Returns new_levels).

(** The network and baseline of the script's example run. *)
Definition EDGES : list (string * string * Q) :=
  [ ("1", "4", 1.0); ("1", "5", 0.6); ("1", "6", 0.7);
    ("2", "4", 1.0); ("3", "4", 0.4); ("4", "3", 0.6);
    ("4", "8", 0.3); ("5", "6", 1.0); ("6", "7", 0.8) ]%string.

Definition INITIAL_LEVELS : gmap string Q :=
  list_to_map [ ("1", 1.0); ("2", 1.0); ("3", 1.0); ("4", 1.0);
                ("5", 1.0); ("6", 1.0); ("7", 1.0); ("8", 1.0) ]%string.

(** The graph [compute_gene_effect] builds, and the influence factor it
    computes for a target; neither depends on [modified_level]. *)
Definition gene_graph (edge_list : list (string * string * Q))
    (initial_levels : gmap string Q) : outcome Graph :=
  DictList (elements (all_gene_names edge_list initial_levels)) edge_list.

Definition influence (edge_list : list (string * string * Q))
    (initial_levels : gmap string Q) (source_gene : string) (max_depth : Z)
    (target_gene : string) : outcome Q :=
  G ← gene_graph edge_list initial_levels;
  source_vid ← vs_find G source_gene;
  target_vid ← vs_find G target_gene;
  get_total_influence G source_vid target_vid 1 max_depth 1.

(** [name] occurs as the source or the target of an edge of the list. *)
Definition endpoint (edge_list : list (string * string * Q)) (name : string) : Prop :=
  exists source target w,
    In (source, target, w) edge_list /\ (name = source \/ name = target).

(** [m] gives [name] a level equal to [q]. *)
Definition has_level (m : gmap string Q) (name : string) (q : Q) : Prop :=
  exists v, m !! name = Some v /\ v == q.

(** ** Auxiliary definitions used by the proofs *)

(** Finite sums of rationals. *)
Definition sum_over {A : Type} (f : A -> Q) (l : list A) : Q :=
  fold_right (fun x acc => f x + acc) 0 l.
Arguments sum_over : simpl never.

(** The weight the loop body reads for the pair [(v, w)]: that of the edge
    [get_eid] retrieves ([0] stands in where there is no such edge, a case
    the loop never meets). *)
Definition edge_weight (G : Graph) (v w : nat) : Q :=
  match get_eid G v w with
  | Returns eid =>
      match es_weight G eid with
      | Returns q => q
      | Raises _ => 0
      end
  | Raises _ => 0
  end.

(** The value [get_total_influence] returns when [n] levels of recursion
    remain, as a plain recursive function (see
    [get_total_influence_walk_sum]). *)
Fixpoint walk_sum (G : Graph) (n : nat) (current target : nat) (p : Q) : Q :=
  match n with
  | O => 0
  | S n' =>
      fold_left
        (fun total nb =>
           let np := p * edge_weight G current nb in
           (if Nat.eqb nb target then total + np else total)
           + walk_sum G n' nb target np)
        (successors G current) 0
  end.

(** Number of recursion levels left at [current_depth]. *)
Definition levels (max_depth current_depth : Z) : nat :=
  Z.to_nat (max_depth + 1 - current_depth).

(** What the enumeration adds up for the walks of exactly [k] steps. *)
Fixpoint influence_at (G : Graph) (k : nat) (v t : nat) : Q :=
  match k with
  | O => if Nat.eqb v t then 1 else 0
  | S k' =>
      sum_over (fun nb => edge_weight G v nb * influence_at G k' nb t)
               (successors G v)
  end.

(** The body of the [for] loop of [get_total_influence], named so that the
    recursion equation can be stated. *)
Definition loop_body (G : Graph) (current_gene target_gene : nat)
    (current_path_product : Q) (max_depth current_depth : Z)
    (acc : outcome Q) (neighbor_gene : nat) : outcome Q :=
  total_influence ← acc;
  edge_id ← get_eid G current_gene neighbor_gene;
  w ← es_weight G edge_id;
  let new_path_product := current_path_product * w in
  let total_influence :=
    if Nat.eqb neighbor_gene target_gene
    then total_influence + new_path_product
    else total_influence in
  r ← get_total_influence G neighbor_gene target_gene
        new_path_product max_depth (current_depth + 1);
  Returns (total_influence + r).

(** The factor the loop of [compute_gene_effect] computes for a target name,
    and the map the loop leaves behind, as plain functions. *)
Definition target_influence (G : Graph) (source_vid : nat) (max_depth : Z)
    (target_gene : string) : Q :=
  match vs_find G target_gene with
  | Returns target_vid => walk_sum G (levels max_depth 1) source_vid target_vid 1
  | Raises _ => 0
  end.

Definition assign_levels (initial_levels : gmap string Q) (initial_shock : Q)
    (G : Graph) (source_gene : string) (source_vid : nat) (max_depth : Z)
    (names : list string) (new_levels : gmap string Q) : gmap string Q :=
  fold_left
    (fun (m : gmap string Q) (target_gene : string) =>
       if decide (target_gene = source_gene) then m
       else <[target_gene :=
                default 0 (initial_levels !! target_gene)
                + initial_shock * target_influence G source_vid max_depth target_gene]> m)
    names new_levels.

(** All edge weights are non-negative. *)
Definition nonneg_weights (G : Graph) : bool :=
  forallb (fun e => Qle_bool 0 (weight e)) (es G).

(** Every edge joins two vertices of the graph. *)
Definition well_formed (G : Graph) : bool :=
  forallb (fun e => Nat.ltb (e_source e) (vcount G) && Nat.ltb (e_target e) (vcount G))
          (es G).

Definition same_ends (e e' : Edge) : bool :=
  Nat.eqb (e_source e) (e_source e') && Nat.eqb (e_target e) (e_target e').

(** No two edges join the same ordered pair of vertices. *)
Fixpoint no_parallel (l : list Edge) : bool :=
  match l with
  | [] => true
  | e :: l' => negb (existsb (same_ends e) l') && no_parallel l'
  end.

(** ** The specification's reference values

    The weighted adjacency matrix [W] of a graph, its powers, and the sum
    [W^1 + ... + W^D]; then the same quantity as a sum over walks.
    Matrices over the vertices [0 .. n-1] are functions of two indices. *)

Definition adjacency (G : Graph) (i j : nat) : Q :=
  sum_over weight
    (List.filter (fun e => Nat.eqb (e_source e) i && Nat.eqb (e_target e) j) (es G)).

Definition mat_id (i j : nat) : Q := if Nat.eqb i j then 1 else 0.

Definition mat_mul (n : nat) (M N : nat -> nat -> Q) (i j : nat) : Q :=
  sum_over (fun k => M i k * N k j) (seq 0 n).

Fixpoint mat_pow (n : nat) (M : nat -> nat -> Q) (k : nat) : nat -> nat -> Q :=
  match k with
  | O => mat_id
  | S k' => mat_mul n M (mat_pow n M k')
  end.

Definition power_sum (n : nat) (M : nat -> nat -> Q) (D : nat) (i j : nat) : Q :=
  sum_over (fun k => mat_pow n M k i j) (seq 1 D).

(** A walk is the list of the edges it follows; [walks G k s] lists every
    walk of [k] edges that starts at [s] (edges and vertices may repeat). *)
Fixpoint walks (G : Graph) (k : nat) (s : nat) : list (list Edge) :=
  match k with
  | O => [[]]
  | S k' =>
      flat_map (fun e => map (cons e) (walks G k' (e_target e)))
               (List.filter (fun e => Nat.eqb (e_source e) s) (es G))
  end.

Definition walk_end (s : nat) (w : list Edge) : nat :=
  List.last (map e_target w) s.

Definition walk_product (w : list Edge) : Q :=
  fold_right (fun e acc => weight e * acc) 1 w.

Definition walks_to (G : Graph) (k : nat) (s t : nat) : list (list Edge) :=
  List.filter (fun w => Nat.eqb (walk_end s w) t) (walks G k s).

(** Sum, over the walks of 1 to [D] edges from [s] to [t], of the product of
    the weights along the walk. *)
Definition walk_total (G : Graph) (D : nat) (s t : nat) : Q :=
  sum_over (fun k => sum_over walk_product (walks_to G k s t)) (seq 1 D).

(** ** Walks given by the vertices they visit *)

(** [path_weight G v path]: the product of the weights the enumeration
    reads along [v -> path[0] -> path[1] -> ...]; a step that is not an
    edge of [G] contributes the factor 0. *)
Fixpoint path_weight (G : Graph) (v : nat) (path : list nat) : Q :=
  match path with
  | [] => 1
  | w :: rest => edge_weight G v w * path_weight G w rest
  end.

(** [is_walk G v path]: every step of [v -> path[0] -> path[1] -> ...] is
    an edge of [G]. *)
Fixpoint is_walk (G : Graph) (v : nat) (path : list nat) : bool :=
  match path with
  | [] => true
  | w :: rest =>
      existsb (fun e => Nat.eqb (e_source e) v && Nat.eqb (e_target e) w) (es G)
      && is_walk G w rest
  end.

(** The influence of [s] on [t] exceeds every bound as the depth grows, and
    every depth is followed by a larger one with a strictly larger value. *)
Definition grows_without_bound (G : Graph) (s t : nat) : Prop :=
  (forall B : Q, exists (d : Z) (v : Q),
      get_total_influence G s t 1 d 1 = Returns v /\ B < v)
  /\ (forall d : Z, exists (d' : Z) (v v' : Q),
         (d < d')%Z
         /\ get_total_influence G s t 1 d 1 = Returns v
         /\ get_total_influence G s t 1 d' 1 = Returns v'
         /\ v < v').

(** ** Small graphs used as concrete instances *)

(** Two parallel edges of different weights from vertex 0 to vertex 1, in
    either order of their ids. *)
Definition parallel_graph : Graph :=
  mkGraph ["A"; "B"]%string [mkEdge 0 1 2; mkEdge 0 1 3].

Definition parallel_graph_swapped : Graph :=
  mkGraph ["A"; "B"]%string [mkEdge 0 1 3; mkEdge 0 1 2].

(** An inhibiting edge into a self-sustaining loop:
    [0 -(-1)-> 1], [1 -(1)-> 1], [1 -(1)-> 2]. *)
Definition inhibited_loop : Graph :=
  mkGraph ["s"; "c"; "t"]%string [mkEdge 0 1 (-1); mkEdge 1 1 1; mkEdge 1 2 1].

(** The same shape with an activating entry edge:
    [0 -(1/2)-> 1], [1 -(1)-> 1], [1 -(1/3)-> 2]. *)
Definition activated_loop : Graph :=
  mkGraph ["s"; "c"; "t"]%string [mkEdge 0 1 (1 # 2); mkEdge 1 1 1; mkEdge 1 2 (1 # 3)].

(** ** Parallel edges, as the enumeration counts them *)

(** Number of edges from [i] to [j]. *)
Definition edge_count (G : Graph) (i j : nat) : nat :=
  length (List.filter (fun e => Nat.eqb (e_source e) i && Nat.eqb (e_target e) j) (es G)).

(** The matrix the enumeration works with: the weight of the edge
    [get_eid] retrieves, once for every edge between the two vertices. *)
Definition effective_adjacency (G : Graph) (i j : nat) : Q :=
  inject_Z (Z.of_nat (edge_count G i j)) * edge_weight G i j.

Definition ends (e : Edge) : nat * nat := (e_source e, e_target e).

(** A graph without cycles: [0 -> 1 -> 2] and the shortcut [0 -> 2]. *)
Definition ranked_graph : Graph :=
  mkGraph ["a"; "b"; "c"]%string
          [mkEdge 0 1 (1 # 2); mkEdge 1 2 (1 # 4); mkEdge 0 2 1].

(** * Proofs *)

(** ** The recursion equation of [get_total_influence] *)

Lemma get_total_influence_eq G c t p md cd :
  get_total_influence G c t p md cd =
  if Z_gt_dec cd md then Returns 0
  else fold_left (loop_body G c t p md cd) (successors G c) (Returns 0).
Proof.
  rewrite get_total_influence_equation_1.
  destruct (Z_gt_dec cd md); reflexivity.
Qed.

(** ** Edge retrieval never fails inside the loop *)

Lemma find_eid_Some l v w i j :
  find_eid l v w i = Some j ->
  exists e, l !! (j - i)%nat = Some e /\ (i <= j)%nat
            /\ e_source e = v /\ e_target e = w.
Proof.
  revert i. induction l as [|e l IH]; intros i H; cbn [find_eid] in H; [discriminate|].
  destruct (find_eid l v w (S i)) as [j'|] eqn:Hrec.
  - injection H as <-. destruct (IH _ Hrec) as (e' & Hl & Hle & Hs & Ht).
    exists e'. replace (j' - i)%nat with (S (j' - S i)) by lia.
    simpl. repeat split; auto; lia.
  - destruct (Nat.eqb (e_source e) v && Nat.eqb (e_target e) w)%bool eqn:Hb;
      [|discriminate].
    injection H as <-. apply andb_prop in Hb as [Hs Ht].
    apply Nat.eqb_eq in Hs, Ht. exists e.
    rewrite Nat.sub_diag. auto.
Qed.

Lemma find_eid_In l v w i e :
  In e l -> e_source e = v -> e_target e = w ->
  exists j, find_eid l v w i = Some j.
Proof.
  revert i. induction l as [|e' l IH]; intros i Hin Hs Ht; [destruct Hin|].
  cbn [find_eid]. destruct (find_eid l v w (S i)) as [j|] eqn:Hrec; [eauto|].
  destruct Hin as [->|Hin].
  - rewrite Hs, Ht, !Nat.eqb_refl. cbn. eauto.
  - destruct (IH (S i) Hin Hs Ht) as [j Hj]. congruence.
Qed.

Lemma in_successors G v nb :
  In nb (successors G v) <->
  exists e, In e (es G) /\ e_source e = v /\ e_target e = nb.
Proof.
  unfold successors. rewrite in_map_iff. split.
  - intros (e & Ht & Hin). apply filter_In in Hin as [Hin Hs].
    apply Nat.eqb_eq in Hs. eauto.
  - intros (e & Hin & Hs & Ht). exists e. split; [exact Ht|].
    apply filter_In. split; [exact Hin|]. now apply Nat.eqb_eq.
Qed.

Lemma successor_edge G v nb :
  In nb (successors G v) ->
  exists eid, get_eid G v nb = Returns eid
              /\ es_weight G eid = Returns (edge_weight G v nb).
Proof.
  intros Hin. apply in_successors in Hin as (e & Hin & Hs & Ht).
  destruct (find_eid_In _ _ _ 0%nat _ Hin Hs Ht) as [j Hj].
  destruct (find_eid_Some _ _ _ _ _ Hj) as (e' & Hl & _ & _ & _).
  rewrite Nat.sub_0_r in Hl.
  exists j. unfold edge_weight, get_eid, es_weight. rewrite Hj, Hl. auto.
Qed.

(** ** [get_total_influence] returns [walk_sum] *)

Lemma levels_zero md cd : (cd > md)%Z -> levels md cd = 0%nat.
Proof. unfold levels. lia. Qed.

Lemma levels_succ md cd : (cd <= md)%Z -> levels md cd = S (levels md (cd + 1)).
Proof. unfold levels. lia. Qed.

Lemma loop_walk_sum G t md cd n c p :
  (forall c' p', get_total_influence G c' t p' md (cd + 1)
                 = Returns (walk_sum G n c' t p')) ->
  forall l acc,
    (forall nb, In nb l -> In nb (successors G c)) ->
    fold_left (loop_body G c t p md cd) l (Returns acc) =
    Returns (fold_left
               (fun total nb =>
                  let np := p * edge_weight G c nb in
                  (if Nat.eqb nb t then total + np else total)
                  + walk_sum G n nb t np) l acc).
Proof.
  intros IH l. induction l as [|nb l IHl]; intros acc Hsub; [reflexivity|].
  destruct (successor_edge G c nb) as (eid & Heid & Hw); [apply Hsub; now left|].
  cbn [fold_left]. unfold loop_body at 2. cbn [mbind outcome_bind].
  rewrite Heid. cbn [mbind outcome_bind]. rewrite Hw. cbn [mbind outcome_bind].
  rewrite IH. cbn [mbind outcome_bind].
  apply IHl. intros nb' Hin. apply Hsub. now right.
Qed.

Lemma get_total_influence_levels G t md n :
  forall c p cd, levels md cd = n ->
    get_total_influence G c t p md cd = Returns (walk_sum G n c t p).
Proof.
  induction n as [|n IH]; intros c p cd Hn; rewrite get_total_influence_eq.
  - destruct (Z_gt_dec cd md); [reflexivity|]. unfold levels in Hn. lia.
  - destruct (Z_gt_dec cd md) as [Hgt|Hle].
    + rewrite levels_zero in Hn by assumption. discriminate.
    + rewrite levels_succ in Hn by lia. injection Hn as Hn.
      simpl. apply loop_walk_sum; auto.
Qed.

Lemma get_total_influence_walk_sum G c t p md cd :
  get_total_influence G c t p md cd = Returns (walk_sum G (levels md cd) c t p).
Proof. now apply get_total_influence_levels. Qed.

(** ** Finite sums over [Q] *)

Section Sums.
Context {A : Type}.
Implicit Types (f g : A -> Q) (l : list A).

Lemma sum_over_nil f : sum_over f [] = 0.
Proof. reflexivity. Qed.

Lemma sum_over_cons f x l : sum_over f (x :: l) = f x + sum_over f l.
Proof. reflexivity. Qed.

Lemma sum_over_ext f g l :
  (forall x, In x l -> f x == g x) -> sum_over f l == sum_over g l.
Proof.
  induction l as [|x l IH]; intros H; [reflexivity|].
  rewrite !sum_over_cons, (H x), IH; [reflexivity| |now left].
  intros y Hy. apply H. now right.
Qed.

Lemma sum_over_app f l1 l2 :
  sum_over f (l1 ++ l2) == sum_over f l1 + sum_over f l2.
Proof.
  induction l1 as [|x l1 IH]; cbn [app]; [rewrite sum_over_nil; ring|].
  rewrite !sum_over_cons, IH. ring.
Qed.

Lemma sum_over_plus f g l :
  sum_over (fun x => f x + g x) l == sum_over f l + sum_over g l.
Proof.
  induction l as [|x l IH]; [reflexivity|].
  rewrite !sum_over_cons, IH. ring.
Qed.

Lemma sum_over_scal c f l :
  sum_over (fun x => c * f x) l == c * sum_over f l.
Proof.
  induction l as [|x l IH]; [rewrite !sum_over_nil; ring|].
  rewrite !sum_over_cons, IH. ring.
Qed.

Lemma sum_over_zero f l :
  (forall x, In x l -> f x == 0) -> sum_over f l == 0.
Proof.
  intros H. rewrite (sum_over_ext f (fun _ => 0) l H).
  clear H. induction l as [|x l IH]; [reflexivity|].
  rewrite sum_over_cons, IH. ring.
Qed.

Lemma sum_over_nonneg f l :
  (forall x, In x l -> 0 <= f x) -> 0 <= sum_over f l.
Proof.
  induction l as [|x l IH]; intros H; [rewrite sum_over_nil; lra|].
  rewrite sum_over_cons.
  assert (0 <= f x) by (apply H; now left).
  assert (0 <= sum_over f l) by (apply IH; intros y Hy; apply H; now right).
  lra.
Qed.

Lemma sum_over_le f g l :
  (forall x, In x l -> f x <= g x) -> sum_over f l <= sum_over g l.
Proof.
  induction l as [|x l IH]; intros H; [rewrite !sum_over_nil; lra|].
  rewrite !sum_over_cons.
  assert (f x <= g x) by (apply H; now left).
  assert (sum_over f l <= sum_over g l)
    by (apply IH; intros y Hy; apply H; now right).
  lra.
Qed.

Lemma sum_over_ge_term f l x :
  (forall y, In y l -> 0 <= f y) -> In x l -> f x <= sum_over f l.
Proof.
  induction l as [|y l IH]; intros H Hin; [destruct Hin|].
  rewrite sum_over_cons.
  assert (0 <= f y) by (apply H; now left).
  assert (0 <= sum_over f l)
    by (apply sum_over_nonneg; intros z Hz; apply H; now right).
  destruct Hin as [->|Hin]; [lra|].
  assert (f x <= sum_over f l) by (apply IH; auto; intros z Hz; apply H; now right).
  lra.
Qed.

Lemma sum_over_filter f (b : A -> bool) l :
  sum_over f (List.filter b l) == sum_over (fun x => if b x then f x else 0) l.
Proof.
  induction l as [|x l IH]; [reflexivity|].
  cbn [List.filter]. rewrite (sum_over_cons (fun x => if b x then f x else 0)).
  destruct (b x); rewrite ?sum_over_cons, IH; ring.
Qed.

Lemma fold_left_sum_over (step : Q -> A -> Q) f l :
  (forall a x, step a x == a + f x) ->
  forall a, fold_left step l a == a + sum_over f l.
Proof.
  intros Hstep. induction l as [|x l IH]; intros a; cbn [fold_left].
  - rewrite sum_over_nil. ring.
  - rewrite IH, Hstep, sum_over_cons. ring.
Qed.
End Sums.

Lemma sum_over_map {A B : Type} (f : B -> Q) (g : A -> B) (l : list A) :
  sum_over f (map g l) = sum_over (fun x => f (g x)) l.
Proof.
  induction l as [|x l IH]; [reflexivity|].
  cbn [map]. now rewrite !sum_over_cons, IH.
Qed.

Lemma sum_over_flat_map {A B : Type} (f : B -> Q) (g : A -> list B) (l : list A) :
  sum_over f (flat_map g l) == sum_over (fun x => sum_over f (g x)) l.
Proof.
  induction l as [|x l IH]; [reflexivity|].
  cbn [flat_map]. rewrite sum_over_app, sum_over_cons, IH. reflexivity.
Qed.

Lemma sum_over_swap {A B : Type} (f : A -> B -> Q) (l1 : list A) (l2 : list B) :
  sum_over (fun x => sum_over (fun y => f x y) l2) l1 ==
  sum_over (fun y => sum_over (fun x => f x y) l1) l2.
Proof.
  induction l1 as [|x l1 IH].
  - rewrite sum_over_nil. symmetry. apply sum_over_zero. reflexivity.
  - rewrite sum_over_cons, IH, <- sum_over_plus. reflexivity.
Qed.

Lemma sum_over_pick (g : nat -> Q) (x : nat) (l : list nat) :
  List.NoDup l -> In x l ->
  sum_over (fun y => if Nat.eqb x y then g y else 0) l == g x.
Proof.
  induction 1 as [|y l Hnin Hnd IH]; intros Hin; [destruct Hin|].
  rewrite sum_over_cons. destruct Hin as [->|Hin].
  - rewrite Nat.eqb_refl, sum_over_zero; [ring|].
    intros z Hz. destruct (Nat.eqb_spec x z) as [->|]; [contradiction|reflexivity].
  - destruct (Nat.eqb_spec x y) as [->|]; [contradiction|].
    rewrite IH by assumption. ring.
Qed.

(** The order in which the summands are listed is immaterial. *)
Lemma sum_over_Permutation {A : Type} (f : A -> Q) (l l' : list A) :
  Permutation l l' -> sum_over f l == sum_over f l'.
Proof.
  induction 1 as [|x l l' _ IH|x y l|l l' l'' _ IH1 _ IH2].
  - reflexivity.
  - rewrite !sum_over_cons, IH. reflexivity.
  - rewrite !sum_over_cons. ring.
  - now rewrite IH1.
Qed.

(** ** [walk_sum] as a sum over walk lengths *)

Lemma walk_sum_step G n c t p :
  walk_sum G (S n) c t p ==
  sum_over (fun nb => (if Nat.eqb nb t then p * edge_weight G c nb else 0)
                      + walk_sum G n nb t (p * edge_weight G c nb))
           (successors G c).
Proof.
  cbn [walk_sum]. rewrite fold_left_sum_over with
    (f := fun nb => (if Nat.eqb nb t then p * edge_weight G c nb else 0)
                    + walk_sum G n nb t (p * edge_weight G c nb)).
  - ring.
  - intros a nb. cbv zeta. destruct (Nat.eqb nb t); ring.
Qed.

Lemma walk_sum_homogeneous G n : forall c t p,
  walk_sum G n c t p == p * walk_sum G n c t 1.
Proof.
  induction n as [|n IH]; intros c t p; [cbn [walk_sum]; ring|].
  rewrite !walk_sum_step, <- sum_over_scal.
  apply sum_over_ext. intros nb _.
  rewrite (IH nb t (p * _)), (IH nb t (1 * _)).
  destruct (Nat.eqb nb t); ring.
Qed.

Lemma walk_sum_influence G n : forall c t,
  walk_sum G n c t 1 == sum_over (fun k => influence_at G k c t) (seq 1 n).
Proof.
  induction n as [|n IH]; intros c t; [reflexivity|].
  rewrite walk_sum_step, <- seq_shift, sum_over_map.
  cbn [influence_at]. rewrite <- sum_over_swap.
  apply sum_over_ext. intros nb _.
  rewrite walk_sum_homogeneous, IH, sum_over_scal.
  change (seq 0 (S n)) with (0%nat :: seq 1 n).
  rewrite sum_over_cons. cbn [influence_at].
  destruct (Nat.eqb nb t); ring.
Qed.

(** ** Homogeneity, totality and the isolated edge *)

(** C10: [get_total_influence] is homogeneous in its path product: called
    with product [p] it returns [p] times what it returns with product 1,
    for every graph, vertex pair and pair of depths. *)
Theorem get_total_influence_homogeneous
    G current target (p : Q) (max_depth current_depth : Z) :
  exists v v1,
    get_total_influence G current target p max_depth current_depth = Returns v
    /\ get_total_influence G current target 1 max_depth current_depth = Returns v1
    /\ v == p * v1.
Proof.
  eexists _, _. rewrite !get_total_influence_walk_sum.
  split; [reflexivity|]. split; [reflexivity|].
  apply walk_sum_homogeneous.
Qed.

(** C8: [get_total_influence] returns a value on every graph, vertex pair,
    product and pair of integer depths (the recursion is bounded by the
    depth alone), and that value is 0 whenever [current_depth] exceeds
    [max_depth]; in particular a query started at depth 1 with
    [max_depth] zero or negative returns 0. *)
Theorem get_total_influence_total :
  (forall G current target p max_depth current_depth,
      exists v, get_total_influence G current target p max_depth current_depth
                = Returns v)
  /\ (forall G current target p max_depth current_depth,
         (current_depth > max_depth)%Z ->
         get_total_influence G current target p max_depth current_depth
         = Returns 0)
  /\ (forall G current target p max_depth,
         (max_depth <= 0)%Z ->
         get_total_influence G current target p max_depth 1 = Returns 0).
Proof.
  split; [|split].
  - intros. eexists. apply get_total_influence_walk_sum.
  - intros G c t p md cd H.
    rewrite get_total_influence_walk_sum, levels_zero by assumption. reflexivity.
  - intros G c t p md H.
    rewrite get_total_influence_walk_sum, levels_zero by lia. reflexivity.
Qed.

Lemma walk_sum_no_successors G n c t p :
  successors G c = [] -> walk_sum G n c t p = 0.
Proof. intros H. destruct n; [reflexivity|]. cbn [walk_sum]. now rewrite H. Qed.

(** C5: in a graph whose only edge goes from [A] to a different vertex [B]
    with weight [w], the influence of [A] on [B] is [w] for every
    [max_depth >= 1], and 0 for [max_depth = 0]. *)
Theorem isolated_edge_exact (names : list string) (A B : nat) (w : Q) (max_depth : Z) :
  A <> B ->
  let G := mkGraph names [mkEdge A B w] in
  ((1 <= max_depth)%Z ->
   exists v, get_total_influence G A B 1 max_depth 1 = Returns v /\ v == w)
  /\ get_total_influence G A B 1 0 1 = Returns 0.
Proof.
  intros Hne G. split.
  - intros Hd. eexists. rewrite get_total_influence_walk_sum.
    split; [reflexivity|].
    unfold levels. replace (Z.to_nat (max_depth + 1 - 1)) with (S (Z.to_nat (max_depth - 1))) by lia.
    rewrite walk_sum_step.
    assert (Hs : successors G A = [B]).
    { unfold successors. simpl. now rewrite Nat.eqb_refl. }
    assert (Hw : edge_weight G A B = w).
    { unfold edge_weight, get_eid. simpl. now rewrite !Nat.eqb_refl. }
    rewrite Hs, sum_over_cons, sum_over_nil, Hw, Nat.eqb_refl.
    rewrite walk_sum_no_successors; [ring|].
    unfold successors. simpl.
    destruct (Nat.eqb_spec A B); [contradiction|reflexivity].
  - rewrite get_total_influence_walk_sum. reflexivity.
Qed.

Lemma isolated_edge_exact_witness :
  0%nat <> 1%nat
  /\ (1 <= 3)%Z
  /\ exists v,
       get_total_influence (mkGraph ["A"; "B"]%string [mkEdge 0 1 0.7]) 0 1 1 3 1
       = Returns v /\ v == 0.7.
Proof.
  split; [lia|]. split; [lia|].
  refine (proj1 (isolated_edge_exact ["A"; "B"]%string 0 1 0.7 3 _) _); lia.
Defined.

(** ** Non-negative weights: monotonicity in the depth *)

Lemma edge_weight_cases G v w :
  edge_weight G v w = 0
  \/ exists e, In e (es G) /\ e_source e = v /\ e_target e = w
               /\ edge_weight G v w = weight e.
Proof.
  unfold edge_weight, get_eid, es_weight.
  destruct (find_eid (es G) v w 0) as [j|] eqn:Hj; [|now left].
  destruct (find_eid_Some _ _ _ _ _ Hj) as (e & Hl & _ & Hs & Ht).
  rewrite Nat.sub_0_r in Hl. rewrite Hl. right. exists e.
  repeat split; auto.
  apply list_elem_of_In. eapply list_elem_of_lookup_2. exact Hl.
Qed.

Lemma nonneg_weights_In G e :
  nonneg_weights G = true -> In e (es G) -> 0 <= weight e.
Proof.
  unfold nonneg_weights. rewrite forallb_forall. intros H Hin.
  apply Qle_bool_iff. auto.
Qed.

Lemma edge_weight_nonneg G v w :
  nonneg_weights G = true -> 0 <= edge_weight G v w.
Proof.
  intros H. destruct (edge_weight_cases G v w) as [->|(e & Hin & _ & _ & ->)].
  - lra.
  - eapply nonneg_weights_In; eauto.
Qed.

Lemma influence_at_nonneg G k :
  nonneg_weights G = true -> forall v t, 0 <= influence_at G k v t.
Proof.
  intros H. induction k as [|k IH]; intros v t; cbn [influence_at].
  - destruct (Nat.eqb v t); lra.
  - apply sum_over_nonneg. intros nb _.
    apply Qmult_le_0_compat; [now apply edge_weight_nonneg | apply IH].
Qed.

Lemma walk_sum_monotone G c t (n1 n2 : nat) :
  nonneg_weights G = true -> (n1 <= n2)%nat ->
  walk_sum G n1 c t 1 <= walk_sum G n2 c t 1.
Proof.
  intros H Hle. rewrite !walk_sum_influence.
  replace n2 with (n1 + (n2 - n1))%nat by lia.
  rewrite seq_app, sum_over_app.
  assert (0 <= sum_over (fun k => influence_at G k c t) (seq (1 + n1) (n2 - n1))).
  { apply sum_over_nonneg. intros k _. now apply influence_at_nonneg. }
  lra.
Qed.

(** C6: when every edge weight is non-negative, the influence of [A] on
    [B] computed with depth [d1] is at most the one computed with any
    depth [d2 >= d1]. *)
Theorem depth_monotone G (A B : nat) (d1 d2 : Z) :
  nonneg_weights G = true ->
  (d1 <= d2)%Z ->
  exists v1 v2,
    get_total_influence G A B 1 d1 1 = Returns v1
    /\ get_total_influence G A B 1 d2 1 = Returns v2
    /\ v1 <= v2.
Proof.
  intros H Hd. eexists _, _. rewrite !get_total_influence_walk_sum.
  split; [reflexivity|]. split; [reflexivity|].
  apply walk_sum_monotone; [assumption|]. unfold levels. lia.
Qed.

Lemma depth_monotone_witness :
  nonneg_weights activated_loop = true
  /\ (2 <= 7)%Z
  /\ exists v1 v2,
       get_total_influence activated_loop 0 2 1 2 1 = Returns v1
       /\ get_total_influence activated_loop 0 2 1 7 1 = Returns v2
       /\ v1 <= v2.
Proof.
  split; [reflexivity|]. split; [lia|].
  apply (depth_monotone activated_loop 0 2 2 7); [reflexivity|lia].
Defined.

(** ** The enumeration against the powers of the adjacency matrix *)

Lemma well_formed_target G e :
  well_formed G = true -> In e (es G) -> In (e_target e) (seq 0 (vcount G)).
Proof.
  unfold well_formed. rewrite forallb_forall. intros H Hin.
  apply H in Hin. apply andb_prop in Hin as [_ Ht].
  apply Nat.ltb_lt in Ht. apply in_seq. lia.
Qed.

(** Summing over the edges that leave [v] is a row of the matrix. *)
Lemma out_edges_adjacency G v (f : nat -> Q) :
  well_formed G = true ->
  sum_over (fun e => weight e * f (e_target e))
           (List.filter (fun e => Nat.eqb (e_source e) v) (es G))
  == sum_over (fun j => adjacency G v j * f j) (seq 0 (vcount G)).
Proof.
  intros Hwf. rewrite sum_over_filter.
  transitivity
    (sum_over (fun j => sum_over
       (fun e => if Nat.eqb (e_source e) v
                 then (if Nat.eqb (e_target e) j then weight e * f j else 0)
                 else 0) (es G)) (seq 0 (vcount G))).
  - rewrite <- sum_over_swap. apply sum_over_ext. intros e Hin.
    destruct (Nat.eqb (e_source e) v).
    + symmetry.
      apply (sum_over_pick (fun j => weight e * f j) (e_target e)).
      * apply seq_NoDup.
      * now apply well_formed_target.
    + symmetry. apply sum_over_zero. reflexivity.
  - apply sum_over_ext. intros j _. unfold adjacency.
    rewrite sum_over_filter, Qmult_comm, <- sum_over_scal.
    apply sum_over_ext. intros e _.
    destruct (Nat.eqb (e_source e) v), (Nat.eqb (e_target e) j); simpl; ring.
Qed.

Lemma no_parallel_unique l e e' :
  no_parallel l = true -> In e l -> In e' l -> same_ends e e' = true -> e = e'.
Proof.
  induction l as [|x l IH]; intros Hnp Hin Hin' Hse; [destruct Hin|].
  cbn [no_parallel] in Hnp. apply andb_prop in Hnp as [Hx Hnp].
  apply negb_true_iff in Hx.
  assert (Hnone : forall y, In y l -> same_ends x y = false).
  { intros y Hy. destruct (same_ends x y) eqn:E; [|reflexivity].
    assert (existsb (same_ends x) l = true) by (apply existsb_exists; eauto).
    congruence. }
  destruct Hin as [->|Hin], Hin' as [->|Hin']; auto.
  - rewrite (Hnone _ Hin') in Hse. discriminate.
  - unfold same_ends in Hse. rewrite (Nat.eqb_sym (e_source e)), (Nat.eqb_sym (e_target e)) in Hse.
    fold (same_ends e' e) in Hse. rewrite (Hnone _ Hin) in Hse. discriminate.
Qed.

Lemma edge_weight_simple G e :
  no_parallel (es G) = true -> In e (es G) ->
  edge_weight G (e_source e) (e_target e) = weight e.
Proof.
  intros Hnp Hin.
  destruct (find_eid_In _ _ _ 0%nat _ Hin eq_refl eq_refl) as [j Hj].
  destruct (find_eid_Some _ _ _ _ _ Hj) as (e' & Hl & _ & Hs & Ht).
  rewrite Nat.sub_0_r in Hl.
  unfold edge_weight, get_eid, es_weight. rewrite Hj, Hl.
  f_equal. apply (no_parallel_unique (es G)); auto.
  - apply list_elem_of_In. eapply list_elem_of_lookup_2. exact Hl.
  - unfold same_ends. rewrite Hs, Ht, !Nat.eqb_refl. reflexivity.
Qed.

Lemma successors_adjacency G v (f : nat -> Q) :
  well_formed G = true -> no_parallel (es G) = true ->
  sum_over (fun nb => edge_weight G v nb * f nb) (successors G v)
  == sum_over (fun j => adjacency G v j * f j) (seq 0 (vcount G)).
Proof.
  intros Hwf Hnp. rewrite <- out_edges_adjacency by assumption.
  unfold successors. rewrite sum_over_map.
  apply sum_over_ext. intros e Hin. apply filter_In in Hin as [Hin Hs].
  apply Nat.eqb_eq in Hs. subst v.
  rewrite edge_weight_simple by assumption. reflexivity.
Qed.

Lemma influence_at_mat_pow G k :
  well_formed G = true -> no_parallel (es G) = true ->
  forall v t, influence_at G k v t == mat_pow (vcount G) (adjacency G) k v t.
Proof.
  intros Hwf Hnp. induction k as [|k IH]; intros v t; [reflexivity|].
  cbn [influence_at mat_pow]. unfold mat_mul.
  rewrite successors_adjacency by assumption.
  apply sum_over_ext. intros j _. now rewrite IH.
Qed.

Lemma last_cons {A : Type} (l : list A) : forall x d,
  List.last (x :: l) d = List.last l x.
Proof.
  induction l as [|y l IH]; intros x d; [reflexivity|].
  change (List.last (x :: y :: l) d) with (List.last (y :: l) d).
  now rewrite (IH y d), (IH y x).
Qed.

Lemma walk_end_cons s e w : walk_end s (e :: w) = walk_end (e_target e) w.
Proof. unfold walk_end. cbn [map]. apply last_cons. Qed.

Lemma walks_mat_pow G k :
  well_formed G = true ->
  forall s t, sum_over walk_product (walks_to G k s t)
              == mat_pow (vcount G) (adjacency G) k s t.
Proof.
  intros Hwf. induction k as [|k IH]; intros s t; unfold walks_to.
  - cbn [walks mat_pow List.filter walk_end map List.last]. unfold mat_id.
    destruct (Nat.eqb s t); [|reflexivity].
    rewrite sum_over_cons, sum_over_nil. unfold walk_product. simpl. ring.
  - cbn [walks mat_pow]. unfold mat_mul.
    rewrite <- out_edges_adjacency by assumption.
    rewrite sum_over_filter, sum_over_flat_map.
    apply sum_over_ext. intros e _.
    rewrite sum_over_map, <- IH. unfold walks_to.
    rewrite sum_over_filter, <- sum_over_scal.
    apply sum_over_ext. intros w _.
    rewrite walk_end_cons. destruct (Nat.eqb (walk_end (e_target e) w) t).
    + reflexivity.
    + ring.
Qed.

(** X13: on a graph in which no two edges join the same
    ordered pair of vertices, the influence of [source] on [target]
    computed with depth [D] is the [(source, target)] entry of
    [W^1 + ... + W^D], [W] being the weighted adjacency matrix, and it is
    the sum, over the walks of 1 to [D] edges from [source] to [target],
    of the product of the weights along the walk.  (For [D < 1] all three
    are 0.) *)
Theorem influence_is_power_sum G (source target : nat) (D : Z) :
  well_formed G = true ->
  no_parallel (es G) = true ->
  exists v,
    get_total_influence G source target 1 D 1 = Returns v
    /\ v == power_sum (vcount G) (adjacency G) (Z.to_nat D) source target
    /\ v == walk_total G (Z.to_nat D) source target.
Proof.
  intros Hwf Hnp. eexists. rewrite get_total_influence_walk_sum.
  split; [reflexivity|].
  unfold levels. replace (D + 1 - 1)%Z with D by lia.
  rewrite walk_sum_influence. unfold power_sum, walk_total.
  split; apply sum_over_ext; intros k _.
  - now apply influence_at_mat_pow.
  - rewrite walks_mat_pow by assumption. now apply influence_at_mat_pow.
Qed.

Lemma influence_is_power_sum_witness :
  well_formed activated_loop = true
  /\ no_parallel (es activated_loop) = true
  /\ exists v,
       get_total_influence activated_loop 0 2 1 4 1 = Returns v
       /\ v == power_sum (vcount activated_loop) (adjacency activated_loop)
                         (Z.to_nat 4) 0 2
       /\ v == walk_total activated_loop (Z.to_nat 4) 0 2.
Proof.
  split; [reflexivity|]. split; [reflexivity|].
  apply (influence_is_power_sum activated_loop 0 2 4); reflexivity.
Defined.

(** C1 at an input with a repeated edge: with the edges [A -> B] of weights
    2 and 3 (ids 0 and 1) and depth 1, the matrix entry and the walk sum
    the claim states are 5, but [get_total_influence] lists [B] twice and
    reads the weight of the same edge, the one [get_eid] retrieves, both
    times: it returns 6 (and 4 when the two edges come in the other
    order).  Through [compute_gene_effect], a unit shock on [A] moves [B]
    from 1 to 7. *)
Theorem parallel_edges_double_count :
  (exists v,
      get_total_influence parallel_graph 0 1 1 1 1 = Returns v
      /\ v == 6
      /\ edge_weight parallel_graph 0 1 == 3
      /\ power_sum (vcount parallel_graph) (adjacency parallel_graph) 1 0 1 == 5
      /\ walk_total parallel_graph 1 0 1 == 5
      /\ ~ v == power_sum (vcount parallel_graph) (adjacency parallel_graph) 1 0 1
      /\ ~ v == walk_total parallel_graph 1 0 1)
  /\ (exists v,
        get_total_influence parallel_graph_swapped 0 1 1 1 1 = Returns v
        /\ v == 4
        /\ edge_weight parallel_graph_swapped 0 1 == 2
        /\ power_sum (vcount parallel_graph_swapped)
                     (adjacency parallel_graph_swapped) 1 0 1 == 5
        /\ walk_total parallel_graph_swapped 1 0 1 == 5)
  /\ (exists new_levels,
        compute_gene_effect [("A", "B", 2); ("A", "B", 3)]%string
                            (list_to_map [("A", 1); ("B", 1)]%string) "A" 2 1
        = Returns new_levels
        /\ has_level new_levels "B" 7).
Proof.
  split; [|split].
  - eexists. split; [vm_compute; reflexivity|].
    repeat split; try reflexivity; vm_compute; discriminate.
  - eexists. split; [vm_compute; reflexivity|].
    repeat split; reflexivity.
  - eexists. split; [vm_compute; reflexivity|].
    eexists. split; [vm_compute; reflexivity|reflexivity].
Qed.

(** ** Loop gain: growth without bound *)

Lemma edge_weight_non_successor G v w :
  ~ In w (successors G v) -> edge_weight G v w = 0.
Proof.
  intros Hnin. destruct (edge_weight_cases G v w) as [H|(e & Hin & Hs & Ht & _)].
  - exact H.
  - exfalso. apply Hnin. apply in_successors. eauto.
Qed.

Lemma Qmult_le_nonneg_l (x y z : Q) : 0 <= z -> x <= y -> z * x <= z * y.
Proof.
  intros Hz Hxy. rewrite !(Qmult_comm z). now apply Qmult_le_compat_r.
Qed.

Section NonNegative.
Variable G : Graph.
Hypothesis Hnn : nonneg_weights G = true.

Lemma influence_at_path (path : list nat) : forall v,
  path_weight G v path <= influence_at G (length path) v (List.last path v).
Proof.
  induction path as [|w rest IH]; intros v.
  - cbn [path_weight length influence_at List.last].
    rewrite Nat.eqb_refl. lra.
  - cbn [path_weight length influence_at]. rewrite last_cons.
    pose proof (edge_weight_nonneg G v w Hnn) as Hw.
    destruct (in_dec Nat.eq_dec w (successors G v)) as [Hin|Hnin].
    + apply Qle_trans with
        (edge_weight G v w * influence_at G (length rest) w (List.last rest w)).
      * apply Qmult_le_nonneg_l; [exact Hw | apply IH].
      * apply (sum_over_ge_term
                 (fun nb => edge_weight G v nb
                            * influence_at G (length rest) nb (List.last rest w)));
          [|exact Hin].
        intros nb _. apply Qmult_le_0_compat;
          [now apply edge_weight_nonneg | now apply influence_at_nonneg].
    + rewrite (edge_weight_non_successor G v w Hnin), Qmult_0_l.
      apply sum_over_nonneg. intros nb _. apply Qmult_le_0_compat;
        [now apply edge_weight_nonneg | now apply influence_at_nonneg].
Qed.

Lemma influence_at_concat (a b : nat) (c t : nat) : forall s,
  influence_at G a s c * influence_at G b c t <= influence_at G (a + b) s t.
Proof.
  induction a as [|a IH]; intros s.
  - cbn [influence_at Nat.add]. destruct (Nat.eqb_spec s c) as [->|_].
    + lra.
    + pose proof (influence_at_nonneg G b Hnn s t). lra.
  - cbn [influence_at Nat.add].
    rewrite Qmult_comm, <- sum_over_scal.
    apply sum_over_le. intros nb _.
    pose proof (edge_weight_nonneg G s nb Hnn) as Hw.
    specialize (IH nb).
    rewrite Qmult_assoc, (Qmult_comm (influence_at G b c t)), <- Qmult_assoc.
    apply Qmult_le_nonneg_l; [exact Hw|].
    rewrite Qmult_comm. exact IH.
Qed.
End NonNegative.

Section LoopGain.
Variable G : Graph.
Hypothesis Hnn : nonneg_weights G = true.
Variables (s c t : nat) (a L b : nat) (eps : Q).
Hypothesis HL : (0 < L)%nat.
Hypothesis Heps : 0 < eps.
Hypothesis Hthrough :
  forall k : nat, eps <= influence_at G (a + (k * L + b)) s t.

Let partial (n : nat) : Q := sum_over (fun k => influence_at G k s t) (seq 1 n).

Lemma partial_grows (K : nat) :
  inject_Z (Z.of_nat K) * eps <= partial (a + b + K * L).
Proof.
  induction K as [|K IH].
  - change (inject_Z (Z.of_nat 0)) with 0. rewrite Qmult_0_l.
    apply sum_over_nonneg. intros k _. now apply influence_at_nonneg.
  - rewrite Nat2Z.inj_succ. unfold Z.succ. rewrite inject_Z_plus.
    change (inject_Z 1) with 1.
    replace (a + b + S K * L)%nat with ((a + b + K * L) + L)%nat by lia.
    unfold partial in *. rewrite seq_app, sum_over_app.
    assert (Hlast : influence_at G (a + (S K * L + b)) s t
                    <= sum_over (fun k => influence_at G k s t)
                                (seq (1 + (a + b + K * L)) L)).
    { apply (sum_over_ge_term (fun k => influence_at G k s t)).
      - intros k _. now apply influence_at_nonneg.
      - apply in_seq. lia. }
    pose proof (Hthrough (S K)). lra.
Qed.

Lemma partial_unbounded (B : Q) : exists n, B < partial n.
Proof.
  destruct (Qarchimedean (B / eps)) as [p Hp].
  exists (a + b + Pos.to_nat p * L)%nat.
  eapply Qlt_le_trans; [|apply partial_grows].
  rewrite positive_nat_Z.
  apply (Qmult_lt_compat_r _ _ eps Heps) in Hp.
  assert (Hd : B / eps * eps == B) by (field; lra).
  rewrite Hd in Hp. exact Hp.
Qed.
End LoopGain.

Lemma cycle_power G (L c : nat) :
  nonneg_weights G = true ->
  1 <= influence_at G L c c ->
  forall k, 1 <= influence_at G (k * L) c c.
Proof.
  intros Hnn HL. induction k as [|k IH].
  - cbn [Nat.mul influence_at]. rewrite Nat.eqb_refl. lra.
  - cbn [Nat.mul].
    eapply Qle_trans; [|apply influence_at_concat with (c := c); assumption].
    now apply Qmult_le_1_compat.
Qed.

Lemma walk_sum_unbounded G (s t : nat) (pre cyc post : list nat) :
  nonneg_weights G = true ->
  0 < path_weight G s pre ->
  cyc <> [] ->
  List.last cyc (List.last pre s) = List.last pre s ->
  1 <= path_weight G (List.last pre s) cyc ->
  List.last post (List.last pre s) = t ->
  0 < path_weight G (List.last pre s) post ->
  forall B, exists n, B < walk_sum G n s t 1.
Proof.
  intros Hnn Hpre Hne Hloop Hcyc Hend Hpost B.
  set (c := List.last pre s) in *.
  pose proof (influence_at_path G Hnn pre s) as Ha. fold c in Ha.
  pose proof (influence_at_path G Hnn cyc c) as Hc. rewrite Hloop in Hc.
  pose proof (influence_at_path G Hnn post c) as Hb. rewrite Hend in Hb.
  assert (HL : (0 < length cyc)%nat) by (destruct cyc; [contradiction|simpl; lia]).
  destruct (partial_unbounded G Hnn s t (length pre) (length cyc) (length post)
              (path_weight G s pre * path_weight G c post) HL) with (B := B)
    as [n Hn].
  - now apply Qmult_lt_0_compat.
  - intros k.
    eapply Qle_trans; [|apply influence_at_concat with (c := c); assumption].
    apply Qmult_le_compat_nonneg; [split; [lra|exact Ha]|].
    split; [lra|].
    eapply Qle_trans; [|apply influence_at_concat with (c := c); assumption].
    assert (1 <= influence_at G (k * length cyc) c c)
      by (apply cycle_power; [assumption|lra]).
    rewrite <- (Qmult_1_l (path_weight G c post)).
    apply Qmult_le_compat_nonneg; split; try lra; assumption.
  - exists n. now rewrite walk_sum_influence.
Qed.

(** Growth in terms of the weights the enumeration reads along vertex
    paths. *)
Lemma grows_without_bound_along_path G (s t : nat) (pre cyc post : list nat) :
  nonneg_weights G = true ->
  0 < path_weight G s pre ->
  cyc <> [] ->
  List.last cyc (List.last pre s) = List.last pre s ->
  1 <= path_weight G (List.last pre s) cyc ->
  List.last post (List.last pre s) = t ->
  0 < path_weight G (List.last pre s) post ->
  grows_without_bound G s t.
Proof.
  intros Hnn Hpre Hne Hloop Hcyc Hend Hpost.
  pose proof (walk_sum_unbounded G s t pre cyc post
                Hnn Hpre Hne Hloop Hcyc Hend Hpost) as Hub.
  assert (Hlev : forall n, levels (Z.of_nat n) 1 = n) by (intros; unfold levels; lia).
  split.
  - intros B. destruct (Hub B) as [n Hn].
    exists (Z.of_nat n). eexists.
    rewrite get_total_influence_walk_sum, Hlev. split; [reflexivity|exact Hn].
  - intros d. destruct (Hub (walk_sum G (levels d 1) s t 1)) as [n Hn].
    exists (Z.of_nat n). eexists _, _.
    rewrite !get_total_influence_walk_sum, Hlev.
    split; [|split; [reflexivity|split; [reflexivity|exact Hn]]].
    destruct (le_lt_dec n (levels d 1)) as [Hle|Hlt].
    + pose proof (walk_sum_monotone G s t _ _ Hnn Hle). lra.
    + unfold levels in Hlt. lia.
Qed.

Lemma in_walks_succ G k v w :
  In w (walks G (S k) v) ->
  exists e rest,
    w = e :: rest /\ In e (es G) /\ e_source e = v
    /\ In rest (walks G k (e_target e)).
Proof.
  cbn [walks]. rewrite in_flat_map. intros (e & He & Hw).
  apply filter_In in He as [He Hs]. apply Nat.eqb_eq in Hs.
  apply in_map_iff in Hw as (rest & <- & Hrest). eauto 6.
Qed.

Lemma walks_path_weight G :
  no_parallel (es G) = true ->
  forall k w v, In w (walks G k v) ->
                path_weight G v (map e_target w) = walk_product w.
Proof.
  intros Hnp. induction k as [|k IH]; intros w v Hw.
  - destruct Hw as [<-|[]]. reflexivity.
  - apply in_walks_succ in Hw as (e & rest & -> & He & <- & Hrest).
    cbn [map path_weight]. rewrite (IH _ _ Hrest), edge_weight_simple by assumption.
    reflexivity.
Qed.

(** C7 (as amended): on a graph in which no two edges join the same
    ordered pair of vertices and no weight is negative, if a cycle whose
    edge weights multiply to at least 1 lies on a walk from the source to
    the target whose part before the cycle and part after the cycle each
    have a positive product of edge weights, then the influence of the
    source on the target exceeds every bound for a large enough depth, and
    every depth is followed by a larger one at which the influence is
    strictly larger.  Walks are given by their edges: [pre] leads from
    [s] to the cycle, [cyc] is the cycle, [post] leads on to [t]. *)
Theorem loop_gain_unbounded G (s t : nat) (pre cyc post : list Edge) :
  nonneg_weights G = true ->
  no_parallel (es G) = true ->
  In pre (walks G (length pre) s) ->
  cyc <> [] ->
  In cyc (walks G (length cyc) (walk_end s pre)) ->
  walk_end (walk_end s pre) cyc = walk_end s pre ->
  In post (walks G (length post) (walk_end s pre)) ->
  walk_end (walk_end s pre) post = t ->
  0 < walk_product pre ->
  1 <= walk_product cyc ->
  0 < walk_product post ->
  grows_without_bound G s t.
Proof.
  intros Hnn Hnp Hpre Hne Hcyc Hloop Hpost Hend Hp1 Hpc Hp2.
  unfold walk_end in *.
  apply (grows_without_bound_along_path G s t
           (map e_target pre) (map e_target cyc) (map e_target post)); auto.
  - now rewrite (walks_path_weight G Hnp _ _ _ Hpre).
  - destruct cyc; [contradiction|discriminate].
  - now rewrite (walks_path_weight G Hnp _ _ _ Hcyc).
  - now rewrite (walks_path_weight G Hnp _ _ _ Hpost).
Qed.

Lemma loop_gain_unbounded_witness : grows_without_bound activated_loop 0 2.
Proof.
  apply (loop_gain_unbounded activated_loop 0 2
           [mkEdge 0 1 (1 # 2)] [mkEdge 1 1 1] [mkEdge 1 2 (1 # 3)]);
    try reflexivity; try discriminate.
  - cbn. auto.
  - cbn. auto.
  - cbn. auto.
Defined.

Lemma inhibited_loop_inside n : forall p,
  0 <= p -> 0 <= walk_sum inhibited_loop n 1 2 p.
Proof.
  induction n as [|n IH]; intros p Hp; [cbn [walk_sum]; lra|].
  rewrite walk_sum_step.
  change (successors inhibited_loop 1) with [1%nat; 2%nat].
  rewrite !sum_over_cons, sum_over_nil.
  change (edge_weight inhibited_loop 1 1) with 1.
  change (edge_weight inhibited_loop 1 2) with 1.
  rewrite (walk_sum_no_successors inhibited_loop n 2) by reflexivity.
  cbn [Nat.eqb].
  assert (0 <= walk_sum inhibited_loop n 1 2 (p * 1)) by (apply IH; lra).
  lra.
Qed.

Lemma inhibited_loop_never_positive n : walk_sum inhibited_loop n 0 2 1 <= 0.
Proof.
  destruct n as [|n]; [cbn [walk_sum]; lra|].
  rewrite walk_sum_step.
  change (successors inhibited_loop 0) with [1%nat].
  rewrite sum_over_cons, sum_over_nil.
  change (edge_weight inhibited_loop 0 1) with (-1 # 1).
  cbn [Nat.eqb]. rewrite walk_sum_homogeneous.
  assert (0 <= walk_sum inhibited_loop n 1 2 1) by (apply inhibited_loop_inside; lra).
  lra.
Qed.

(** C7, as stated, fails when the walk carries a negative weight: in
    [inhibited_loop] the loop [1 -> 1] has gain 1 and lies on the walk
    [0 -> 1 -> 1 -> 2], yet the influence of 0 on 2 is never positive,
    whatever the depth. *)
Lemma inhibited_loop_counterexample :
  is_walk inhibited_loop 0 [1%nat; 1%nat; 2%nat] = true
  /\ 1 <= path_weight inhibited_loop 1 [1%nat]
  /\ (forall d v, get_total_influence inhibited_loop 0 2 1 d 1 = Returns v -> v <= 0)
  /\ ~ grows_without_bound inhibited_loop 0 2.
Proof.
  assert (Hneg : forall d v,
             get_total_influence inhibited_loop 0 2 1 d 1 = Returns v -> v <= 0).
  { intros d v H. rewrite get_total_influence_walk_sum in H.
    injection H as <-. apply inhibited_loop_never_positive. }
  split; [reflexivity|]. split; [vm_compute; discriminate|]. split; [exact Hneg|].
  intros [Hub _]. destruct (Hub 0) as (d & v & Hv & Hpos).
  apply Hneg in Hv. lra.
Qed.

(** ** [compute_gene_effect]: names, graph construction, the loop *)

Lemma index_of_Some name l : forall i j,
  index_of name l i = Some j -> (i <= j)%nat /\ l !! (j - i)%nat = Some name.
Proof.
  induction l as [|x l IH]; intros i j H; cbn [index_of] in H; [discriminate|].
  destruct (String.eqb x name) eqn:E.
  - injection H as <-. apply String.eqb_eq in E as ->.
    rewrite Nat.sub_diag. auto.
  - apply IH in H as [Hle Hl]. split; [lia|].
    replace (j - i)%nat with (S (j - S i)) by lia. exact Hl.
Qed.

Lemma index_of_In name l : forall i,
  In name l -> exists j, index_of name l i = Some j.
Proof.
  induction l as [|x l IH]; intros i Hin; [destruct Hin|].
  cbn [index_of]. destruct (String.eqb x name) eqn:E; [eauto|].
  destruct Hin as [->|Hin]; [|eauto].
  rewrite String.eqb_refl in E. discriminate.
Qed.

Lemma index_of_not_In name l : forall i,
  ~ In name l -> index_of name l i = None.
Proof.
  intros i Hnin. destruct (index_of name l i) as [j|] eqn:E; [|reflexivity].
  apply index_of_Some in E as [_ E]. exfalso. apply Hnin.
  apply list_elem_of_In. eapply list_elem_of_lookup_2. exact E.
Qed.

Lemma elem_of_all_gene_names edge_list (initial_levels : gmap string Q) name :
  name ∈ all_gene_names edge_list initial_levels <->
  name ∈ dom initial_levels \/ endpoint edge_list name.
Proof.
  unfold all_gene_names, endpoint.
  generalize (dom initial_levels) as S0.
  induction edge_list as [|[[s t] w] rest IH]; intros S0; cbn [fold_left].
  - split; [auto|]. intros [H|(s & t & w & [] & _)]. exact H.
  - rewrite IH. split.
    + intros [H|(s' & t' & w' & Hin & Hn)].
      * apply elem_of_union in H as [H|H].
        -- apply elem_of_union in H as [H|H]; [now left|].
           apply elem_of_singleton in H. right. exists s, t, w. split; [now left|auto].
        -- apply elem_of_singleton in H. right. exists s, t, w. split; [now left|auto].
      * right. exists s', t', w'. split; [now right|exact Hn].
    + intros [H|(s' & t' & w' & [Heq|Hin] & Hn)].
      * left. apply elem_of_union. left. apply elem_of_union. now left.
      * injection Heq as <- <- <-. left. apply elem_of_union.
        destruct Hn as [->| ->].
        -- left. apply elem_of_union. right. now apply elem_of_singleton.
        -- right. now apply elem_of_singleton.
      * right. exists s', t', w'. auto.
Qed.

Lemma In_gene_names edge_list (initial_levels : gmap string Q) name :
  In name (elements (all_gene_names edge_list initial_levels)) <->
  name ∈ all_gene_names edge_list initial_levels.
Proof. rewrite <- list_elem_of_In. apply elem_of_elements. Qed.

Lemma resolve_edges_ok names edge_list :
  (forall s t w, In (s, t, w) edge_list -> In s names /\ In t names) ->
  exists edges, resolve_edges names edge_list = Returns edges.
Proof.
  induction edge_list as [|[[s t] w] rest IH]; intros H; cbn [resolve_edges]; [eauto|].
  destruct (H s t w) as [Hs Ht]; [now left|].
  destruct (index_of_In s names 0%nat Hs) as [i Hi].
  destruct (index_of_In t names 0%nat Ht) as [j Hj].
  destruct IH as [edges He]; [intros s' t' w' Hin; apply (H s' t' w'); now right|].
  unfold resolve. rewrite Hi, Hj. cbn [mbind outcome_bind].
  rewrite He. cbn [mbind outcome_bind]. eauto.
Qed.

Lemma gene_graph_ok edge_list (initial_levels : gmap string Q) :
  exists G, gene_graph edge_list initial_levels = Returns G
            /\ vs G = elements (all_gene_names edge_list initial_levels).
Proof.
  unfold gene_graph, DictList.
  destruct (resolve_edges_ok (elements (all_gene_names edge_list initial_levels))
              edge_list) as [edges He].
  - intros s t w Hin. rewrite !In_gene_names, !elem_of_all_gene_names.
    split; right; exists s, t, w; auto.
  - rewrite He. cbn [mbind outcome_bind]. eauto.
Qed.

Lemma resolve_edges_in_range names : forall edge_list edges,
  resolve_edges names edge_list = Returns edges ->
  forallb (fun e => Nat.ltb (e_source e) (length names)
                    && Nat.ltb (e_target e) (length names)) edges = true.
Proof.
  induction edge_list as [|[[s t] w] rest IH]; intros edges H; cbn [resolve_edges] in H.
  - injection H as <-. reflexivity.
  - unfold resolve in H.
    destruct (index_of s names 0) as [i|] eqn:Hi; [|discriminate].
    destruct (index_of t names 0) as [j|] eqn:Hj; [|discriminate].
    cbn [mbind outcome_bind] in H.
    destruct (resolve_edges names rest) as [edges'|] eqn:He; [|discriminate].
    cbn [mbind outcome_bind] in H. injection H as <-.
    apply index_of_Some in Hi as [_ Hi], Hj as [_ Hj].
    apply lookup_lt_Some in Hi, Hj.
    cbn [forallb e_source e_target]. rewrite (IH edges' eq_refl), andb_true_r.
    apply andb_true_intro. split; apply Nat.ltb_lt; lia.
Qed.

(** The graph [compute_gene_effect] builds has all its edges between its
    own vertices. *)
Lemma gene_graph_well_formed edge_list (initial_levels : gmap string Q) G :
  gene_graph edge_list initial_levels = Returns G -> well_formed G = true.
Proof.
  unfold gene_graph, DictList. intros H.
  destruct (resolve_edges _ edge_list) as [edges|] eqn:He; [|discriminate].
  cbn [mbind outcome_bind] in H. injection H as <-.
  unfold well_formed, vcount. cbn [vs es].
  now apply resolve_edges_in_range with (edge_list := edge_list).
Qed.

Lemma vs_find_In G name :
  In name (vs G) -> exists i, vs_find G name = Returns i.
Proof.
  intros Hin. unfold vs_find.
  destruct (index_of_In name (vs G) 0%nat Hin) as [i ->]. eauto.
Qed.

Lemma vs_find_not_In G name :
  ~ In name (vs G) -> vs_find G name = Raises ValueError.
Proof.
  intros Hnin. unfold vs_find. now rewrite index_of_not_In.
Qed.

Lemma effect_loop (initial_levels : gmap string Q) initial_shock G
    source_gene source_vid max_depth :
  forall (names : list string) (new_levels : gmap string Q),
    (forall x, In x names -> In x (vs G)) ->
    fold_left
      (fun (acc : outcome (gmap string Q)) (target_gene : string) =>
         new_levels ← acc;
         if decide (target_gene = source_gene) then Returns new_levels
         else
           match vs_find G target_gene with
           | Raises InternalError => Returns new_levels
           | Raises e => Raises e
           | Returns target_vid =>
               total_influence_factor ←
                 get_total_influence G source_vid target_vid 1 max_depth 1;
               let initial_level_target := default 0 (initial_levels !! target_gene) in
               let change := initial_shock * total_influence_factor in
               Returns (<[target_gene := initial_level_target + change]> new_levels)
           end)
      names (Returns new_levels)
    = Returns (assign_levels initial_levels initial_shock G source_gene source_vid
                             max_depth names new_levels).
Proof.
  induction names as [|x names IH]; intros m Hsub; [reflexivity|].
  unfold assign_levels. cbn [fold_left mbind outcome_bind].
  destruct (decide (x = source_gene)) as [->|Hne].
  - apply IH. intros y Hy. apply Hsub. now right.
  - unfold target_influence.
    destruct (vs_find_In G x) as [i Hi]; [apply Hsub; now left|].
    rewrite Hi, get_total_influence_walk_sum. cbn [mbind outcome_bind].
    apply IH. intros y Hy. apply Hsub. now right.
Qed.

Lemma assign_levels_lookup (initial_levels : gmap string Q) initial_shock G
    source_gene source_vid max_depth (k : string) :
  forall (names : list string) (m : gmap string Q),
    assign_levels initial_levels initial_shock G source_gene source_vid
                  max_depth names m !! k
    = if decide (k <> source_gene /\ k ∈ names)
      then Some (default 0 (initial_levels !! k)
                 + initial_shock * target_influence G source_vid max_depth k)
      else m !! k.
Proof.
  unfold assign_levels.
  induction names as [|x names IH]; intros m; cbn [fold_left].
  - destruct (decide _) as [[_ H]|_]; [|reflexivity]. now apply not_elem_of_nil in H.
  - rewrite IH. destruct (decide (k <> source_gene /\ k ∈ names)) as [[Hne Hin]|Hn].
    + rewrite decide_True; [reflexivity|]. split; [exact Hne|]. now apply elem_of_cons; right.
    + destruct (decide (x = source_gene)) as [->|Hx].
      * destruct (decide (k <> source_gene /\ k ∈ source_gene :: names)) as [[Hne Hin]|_];
          [|reflexivity].
        apply elem_of_cons in Hin as [->|Hin]; [contradiction|]. exfalso. auto.
      * destruct (decide (k = x)) as [->|Hkx].
        -- rewrite lookup_insert_eq, decide_True; [reflexivity|].
           split; [exact Hx|]. apply elem_of_cons. now left.
        -- rewrite lookup_insert_ne by congruence.
           rewrite decide_False; [reflexivity|].
           intros [Hne Hin]. apply elem_of_cons in Hin as [->|Hin]; [contradiction|].
           auto.
Qed.

(** What [compute_gene_effect] returns when the perturbed gene is known. *)
Lemma compute_gene_effect_spec edge_list (initial_levels : gmap string Q)
    source_gene (modified_level : Q) (max_depth : Z) :
  source_gene ∈ all_gene_names edge_list initial_levels ->
  exists G source_vid new_levels,
    gene_graph edge_list initial_levels = Returns G
    /\ vs_find G source_gene = Returns source_vid
    /\ compute_gene_effect edge_list initial_levels source_gene modified_level max_depth
       = Returns new_levels
    /\ new_levels !! source_gene = Some modified_level
    /\ (forall k, k <> source_gene ->
                  k ∈ all_gene_names edge_list initial_levels ->
                  new_levels !! k
                  = Some (default 0 (initial_levels !! k)
                          + (modified_level - default 0 (initial_levels !! source_gene))
                            * target_influence G source_vid max_depth k)
                  /\ influence edge_list initial_levels source_gene max_depth k
                     = Returns (target_influence G source_vid max_depth k))
    /\ (forall k, k <> source_gene ->
                  k ∉ all_gene_names edge_list initial_levels ->
                  new_levels !! k = None).
Proof.
  intros Hsrc.
  destruct (gene_graph_ok edge_list initial_levels) as (G & HG & Hvs).
  destruct (vs_find_In G source_gene) as [sv Hsv].
  { rewrite Hvs. now apply In_gene_names. }
  exists G, sv. eexists. split; [exact HG|]. split; [exact Hsv|].
  unfold compute_gene_effect. fold (gene_graph edge_list initial_levels).
  rewrite HG. cbn [mbind outcome_bind]. rewrite Hsv. cbn [mbind outcome_bind].
  rewrite effect_loop by (rewrite Hvs; auto).
  split; [reflexivity|]. split; [|split].
  - rewrite assign_levels_lookup, decide_False by (intros [H _]; now apply H).
    apply lookup_insert_eq.
  - intros k Hk Hin. split.
    + rewrite assign_levels_lookup, decide_True; [reflexivity|].
      split; [exact Hk|]. now apply elem_of_elements.
    + unfold influence. rewrite HG. cbn [mbind outcome_bind].
      rewrite Hsv. cbn [mbind outcome_bind]. unfold target_influence.
      destruct (vs_find_In G k) as [i Hi].
      { rewrite Hvs. now apply In_gene_names. }
      rewrite Hi. cbn [mbind outcome_bind]. apply get_total_influence_walk_sum.
  - intros k Hk Hnin.
    rewrite assign_levels_lookup, decide_False.
    + rewrite lookup_insert_ne by congruence.
      apply not_elem_of_dom. intros Hd. apply Hnin.
      apply elem_of_all_gene_names. now left.
    + intros [_ Hin]. apply Hnin. now apply elem_of_elements.
Qed.

Lemma compute_gene_effect_unknown_source edge_list (initial_levels : gmap string Q)
    source_gene (modified_level : Q) (max_depth : Z) :
  source_gene ∉ all_gene_names edge_list initial_levels ->
  compute_gene_effect edge_list initial_levels source_gene modified_level max_depth
  = Raises ValueError.
Proof.
  intros Hsrc.
  destruct (gene_graph_ok edge_list initial_levels) as (G & HG & Hvs).
  unfold compute_gene_effect. fold (gene_graph edge_list initial_levels).
  rewrite HG. cbn [mbind outcome_bind].
  rewrite vs_find_not_In; [reflexivity|].
  rewrite Hvs, In_gene_names. exact Hsrc.
Qed.

(** ** The claims about [compute_gene_effect] *)

(** C2: on the example network, with every baseline level 1.0, gene "1"
    forced to 1.5 and depth 2, [compute_gene_effect] returns the levels
    "1" -> 1.5, "4" -> 1.5, "3" -> 1.3, "8" -> 1.15, "5" -> 1.3,
    "6" -> 1.65, "7" -> 1.28 and "2" -> 1.0, and nothing else. *)
Theorem example_run :
  exists new_levels,
    compute_gene_effect EDGES INITIAL_LEVELS "1" 1.5 2 = Returns new_levels
    /\ dom new_levels = list_to_set ["1"; "2"; "3"; "4"; "5"; "6"; "7"; "8"]%string
    /\ has_level new_levels "1" 1.5
    /\ has_level new_levels "4" 1.5
    /\ has_level new_levels "3" 1.3
    /\ has_level new_levels "8" 1.15
    /\ has_level new_levels "5" 1.3
    /\ has_level new_levels "6" 1.65
    /\ has_level new_levels "7" 1.28
    /\ has_level new_levels "2" 1.0.
Proof.
  eexists. split; [vm_compute; reflexivity|].
  split; [vm_compute; reflexivity|].
  repeat split; eexists; (split; [vm_compute; reflexivity|reflexivity]).
Qed.

Lemma known_gene edge_list (initial_levels : gmap string Q) name :
  name ∈ dom initial_levels \/ endpoint edge_list name ->
  name ∈ all_gene_names edge_list initial_levels.
Proof. apply elem_of_all_gene_names. Qed.

Lemma returns_known_source edge_list (initial_levels : gmap string Q)
    source_gene modified_level max_depth new_levels :
  compute_gene_effect edge_list initial_levels source_gene modified_level max_depth
  = Returns new_levels ->
  source_gene ∈ all_gene_names edge_list initial_levels.
Proof.
  intros Hret.
  destruct (decide (source_gene ∈ all_gene_names edge_list initial_levels))
    as [Hin|Hnin]; [exact Hin|].
  rewrite compute_gene_effect_unknown_source in Hret by assumption. discriminate.
Qed.

(** C3: whenever [compute_gene_effect] returns, the new level of every
    gene other than the perturbed one is
    [baseline(target) + (modified_level - baseline(source)) * influence],
    where the influence factor is computed from the edge list, the
    baseline names, the source and the depth alone, and baselines absent
    from [initial_levels] count as 0. *)
Theorem shock_linearity edge_list (initial_levels : gmap string Q)
    (source_gene : string) (max_depth : Z) (modified_level : Q)
    (new_levels : gmap string Q) (target_gene : string) :
  compute_gene_effect edge_list initial_levels source_gene modified_level max_depth
  = Returns new_levels ->
  target_gene <> source_gene ->
  target_gene ∈ dom initial_levels \/ endpoint edge_list target_gene ->
  exists infl v,
    influence edge_list initial_levels source_gene max_depth target_gene = Returns infl
    /\ new_levels !! target_gene = Some v
    /\ v == default 0 (initial_levels !! target_gene)
            + (modified_level - default 0 (initial_levels !! source_gene)) * infl.
Proof.
  intros Hret Hne Hknown.
  pose proof (returns_known_source _ _ _ _ _ _ Hret) as Hsrc.
  destruct (compute_gene_effect_spec edge_list initial_levels source_gene
              modified_level max_depth Hsrc)
    as (G & sv & m & _ & _ & Hm & _ & Hother & _).
  rewrite Hm in Hret. injection Hret as <-.
  destruct (Hother target_gene Hne (known_gene _ _ _ Hknown)) as [Hl Hi].
  eexists _, _. split; [exact Hi|]. split; [exact Hl|]. reflexivity.
Qed.

Lemma shock_linearity_witness :
  exists new_levels,
    compute_gene_effect EDGES INITIAL_LEVELS "1" 1.5 2 = Returns new_levels
    /\ exists infl v,
         influence EDGES INITIAL_LEVELS "1" 2 "6" = Returns infl
         /\ new_levels !! "6"%string = Some v
         /\ v == default 0 (INITIAL_LEVELS !! "6"%string)
                 + (1.5 - default 0 (INITIAL_LEVELS !! "1"%string)) * infl.
Proof.
  eexists. split; [vm_compute; reflexivity|].
  apply (shock_linearity EDGES INITIAL_LEVELS "1" 2 1.5).
  - vm_compute. reflexivity.
  - discriminate.
  - right. exists "5"%string, "6"%string, 1.0. split; [|now right].
    unfold EDGES. do 7 right. now left.
Defined.

(** C4 (as amended): when the perturbed gene is a key of [initial_levels]
    or an endpoint of an edge, [compute_gene_effect] returns a mapping (no
    exception reaches the caller, whatever the names are) that gives the
    perturbed gene its forced level; if the perturbed gene has no baseline
    entry its baseline counts as 0 in the shock applied to every other
    gene. *)
Theorem known_source_returns edge_list (initial_levels : gmap string Q)
    (source_gene : string) (modified_level : Q) (max_depth : Z) :
  source_gene ∈ dom initial_levels \/ endpoint edge_list source_gene ->
  exists new_levels,
    compute_gene_effect edge_list initial_levels source_gene modified_level max_depth
    = Returns new_levels
    /\ new_levels !! source_gene = Some modified_level
    /\ (initial_levels !! source_gene = None ->
        forall target_gene,
          target_gene <> source_gene ->
          target_gene ∈ dom initial_levels \/ endpoint edge_list target_gene ->
          exists infl v,
            influence edge_list initial_levels source_gene max_depth target_gene
            = Returns infl
            /\ new_levels !! target_gene = Some v
            /\ v == default 0 (initial_levels !! target_gene)
                    + (modified_level - 0) * infl).
Proof.
  intros Hknown.
  destruct (compute_gene_effect_spec edge_list initial_levels source_gene
              modified_level max_depth (known_gene _ _ _ Hknown))
    as (G & sv & m & _ & _ & Hm & Hs & Hother & _).
  exists m. split; [exact Hm|]. split; [exact Hs|].
  intros Hnone target_gene Hne Ht.
  destruct (Hother target_gene Hne (known_gene _ _ _ Ht)) as [Hl Hi].
  rewrite Hnone in Hl. eexists _, _. split; [exact Hi|]. split; [exact Hl|].
  reflexivity.
Qed.

Lemma known_source_returns_witness :
  exists new_levels,
    compute_gene_effect [("X", "Y", 0.5)]%string ∅ "X" 2 5 = Returns new_levels
    /\ new_levels !! "X"%string = Some 2
    /\ ((∅ : gmap string Q) !! "X"%string = None ->
        forall target_gene,
          target_gene <> "X"%string ->
          target_gene ∈ dom (∅ : gmap string Q)
          \/ endpoint [("X", "Y", 0.5)]%string target_gene ->
          exists infl v,
            influence [("X", "Y", 0.5)]%string ∅ "X" 5 target_gene = Returns infl
            /\ new_levels !! target_gene = Some v
            /\ v == default 0 ((∅ : gmap string Q) !! target_gene) + (2 - 0) * infl).
Proof.
  apply (known_source_returns [("X", "Y", 0.5)]%string ∅ "X" 2 5).
  right. exists "X"%string, "Y"%string, 0.5. split; [now left|now left].
Defined.

(** C4, as stated, fails for a perturbed gene that is neither a key of
    [initial_levels] nor an endpoint of an edge: the lookup of its vertex
    raises [ValueError], which nothing catches. *)
Lemma unknown_source_counterexample :
  INITIAL_LEVELS !! "9"%string = None
  /\ compute_gene_effect EDGES INITIAL_LEVELS "9" 1.5 2 = Raises ValueError.
Proof. split; vm_compute; reflexivity. Qed.

(** C9: whenever [compute_gene_effect] returns, the keys of the mapping
    are exactly the keys of [initial_levels] together with the endpoints of
    the edges; in particular each of them has an entry, and a gene known
    only as an endpoint gets the level [0 + shock * influence]. *)
Theorem result_covers_all_genes edge_list (initial_levels : gmap string Q)
    (source_gene : string) (modified_level : Q) (max_depth : Z)
    (new_levels : gmap string Q) :
  compute_gene_effect edge_list initial_levels source_gene modified_level max_depth
  = Returns new_levels ->
  (forall name, name ∈ dom new_levels <->
                name ∈ dom initial_levels \/ endpoint edge_list name)
  /\ (forall name, name ∈ dom initial_levels \/ endpoint edge_list name ->
                   is_Some (new_levels !! name))
  /\ (forall name, endpoint edge_list name ->
                   initial_levels !! name = None ->
                   name <> source_gene ->
                   exists infl v,
                     influence edge_list initial_levels source_gene max_depth name
                     = Returns infl
                     /\ new_levels !! name = Some v
                     /\ v == 0 + (modified_level
                                  - default 0 (initial_levels !! source_gene)) * infl).
Proof.
  intros Hret.
  pose proof (returns_known_source _ _ _ _ _ _ Hret) as Hsrc.
  destruct (compute_gene_effect_spec edge_list initial_levels source_gene
              modified_level max_depth Hsrc)
    as (G & sv & m & _ & _ & Hm & Hs & Hother & Hout).
  rewrite Hm in Hret. injection Hret as <-.
  assert (Hcover : forall name, name ∈ all_gene_names edge_list initial_levels ->
                                is_Some (m !! name)).
  { intros name Hin. destruct (decide (name = source_gene)) as [->|Hne].
    - rewrite Hs. eauto.
    - destruct (Hother name Hne Hin) as [-> _]. eauto. }
  split; [|split].
  - intros name. rewrite <- elem_of_all_gene_names, elem_of_dom. split; [|apply Hcover].
    intros Hsome. destruct (decide (name = source_gene)) as [->|Hne]; [exact Hsrc|].
    destruct (decide (name ∈ all_gene_names edge_list initial_levels)) as [Hin|Hnin];
      [exact Hin|].
    rewrite (Hout name Hne Hnin) in Hsome. now destruct Hsome.
  - intros name Hknown. apply Hcover, known_gene, Hknown.
  - intros name Hend Hnone Hne.
    destruct (Hother name Hne (known_gene _ _ _ (or_intror Hend))) as [Hl Hi].
    rewrite Hnone in Hl. eexists _, _. split; [exact Hi|]. split; [exact Hl|].
    reflexivity.
Qed.

Lemma result_covers_all_genes_witness :
  exists new_levels,
    compute_gene_effect [("X", "Y", 0.5)]%string {[ "Z"%string := 3 ]} "X" 2 5
    = Returns new_levels
    /\ is_Some (new_levels !! "X"%string)
    /\ is_Some (new_levels !! "Y"%string)
    /\ is_Some (new_levels !! "Z"%string).
Proof.
  eexists. split; [vm_compute; reflexivity|].
  pose proof (result_covers_all_genes [("X", "Y", 0.5)]%string
                {[ "Z"%string := 3 ]} "X" 2 5 _ eq_refl) as (_ & Hcov & _).
  assert (He : forall n, n = "X"%string \/ n = "Y"%string ->
                         endpoint [("X", "Y", 0.5)]%string n).
  { intros n Hn. exists "X"%string, "Y"%string, 0.5. split; [now left|exact Hn]. }
  split; [|split].
  - apply Hcov. right. apply He. now left.
  - apply Hcov. right. apply He. now right.
  - apply Hcov. left. apply elem_of_dom. vm_compute. eauto.
Defined.

(** * Further properties of the code *)

(** ** Targets that no walk reaches *)

Lemma successor_is_edge G v nb :
  In nb (successors G v) ->
  existsb (fun e => Nat.eqb (e_source e) v && Nat.eqb (e_target e) nb) (es G) = true.
Proof.
  intros Hin. apply in_successors in Hin as (e & Hin & Hs & Ht).
  apply existsb_exists. exists e. split; [exact Hin|].
  now rewrite Hs, Ht, !Nat.eqb_refl.
Qed.

Lemma walk_sum_no_walk G t n : forall c p,
  (forall path, path <> [] -> (length path <= n)%nat ->
                is_walk G c path = true -> List.last path c <> t) ->
  walk_sum G n c t p == 0.
Proof.
  induction n as [|n IH]; intros c p Hno; [reflexivity|].
  rewrite walk_sum_step. apply sum_over_zero. intros nb Hnb.
  pose proof (successor_is_edge G c nb Hnb) as Hedge.
  assert (Hne : nb <> t).
  { apply (Hno [nb]); [discriminate|cbn [length]; lia|].
    cbn [is_walk]. now rewrite Hedge. }
  destruct (Nat.eqb_spec nb t) as [->|_]; [contradiction|].
  rewrite IH; [ring|].
  intros path Hp Hlen Hw. rewrite <- (last_cons path nb c).
  apply Hno; [discriminate|cbn [length]; lia|].
  cbn [is_walk]. now rewrite Hedge.
Qed.

(** X1: when no walk of 1 to [max_depth] edges leads from [source] to
    [target], [get_total_influence], called as [compute_gene_effect] calls
    it, returns 0, whatever the path product it is given. *)
Theorem unreachable_target_zero G (source target : nat) (p : Q) (max_depth : Z) :
  (forall path, path <> [] -> (Z.of_nat (length path) <= max_depth)%Z ->
                is_walk G source path = true -> List.last path source <> target) ->
  exists v, get_total_influence G source target p max_depth 1 = Returns v /\ v == 0.
Proof.
  intros Hno. eexists. rewrite get_total_influence_walk_sum.
  split; [reflexivity|]. apply walk_sum_no_walk.
  intros path Hp Hlen Hw. apply Hno; [exact Hp| |exact Hw].
  unfold levels in Hlen. destruct path; [contradiction|].
  cbn [length] in *. lia.
Qed.

Lemma unreachable_target_zero_witness :
  exists v, get_total_influence activated_loop 2 0 (3 # 2) 10 1 = Returns v /\ v == 0.
Proof.
  apply (unreachable_target_zero activated_loop 2 0 (3 # 2) 10).
  intros [|w rest] Hp _ Hw; [contradiction|]. discriminate Hw.
Defined.

Lemma walk_sum_no_incoming G t n : forall c p,
  (forall e, In e (es G) -> e_target e <> t) -> walk_sum G n c t p == 0.
Proof.
  induction n as [|n IH]; intros c p Hno; [reflexivity|].
  rewrite walk_sum_step. apply sum_over_zero. intros nb Hnb.
  apply in_successors in Hnb as (e & Hin & _ & Ht).
  destruct (Nat.eqb_spec nb t) as [->|_]; [now apply Hno in Hin|].
  rewrite IH by assumption. ring.
Qed.

(** ** The graph built from the edge list *)

Lemma resolve_edges_Forall2 names : forall edge_list edges,
  resolve_edges names edge_list = Returns edges ->
  Forall2 (fun (x : string * string * Q) (e : Edge) =>
             index_of x.1.1 names 0 = Some (e_source e)
             /\ index_of x.1.2 names 0 = Some (e_target e)
             /\ weight e = x.2)
          edge_list edges.
Proof.
  induction edge_list as [|[[s t] w] rest IH]; intros edges H; cbn [resolve_edges] in H.
  - injection H as <-. constructor.
  - unfold resolve in H.
    destruct (index_of s names 0) as [i|] eqn:Hi; [|discriminate].
    destruct (index_of t names 0) as [j|] eqn:Hj; [|discriminate].
    cbn [mbind outcome_bind] in H.
    destruct (resolve_edges names rest) as [edges'|] eqn:He; [|discriminate].
    cbn [mbind outcome_bind] in H. injection H as <-.
    constructor; [|now apply IH]. cbn. auto.
Qed.

Lemma gene_graph_edges edge_list (initial_levels : gmap string Q) G :
  gene_graph edge_list initial_levels = Returns G ->
  vs G = elements (all_gene_names edge_list initial_levels)
  /\ resolve_edges (vs G) edge_list = Returns (es G).
Proof.
  unfold gene_graph, DictList. intros H.
  destruct (resolve_edges _ edge_list) as [edges|] eqn:He; [|discriminate].
  cbn [mbind outcome_bind] in H. injection H as <-. cbn [vs es]. auto.
Qed.

Lemma gene_graph_edge_origin edge_list (initial_levels : gmap string Q) G e :
  gene_graph edge_list initial_levels = Returns G ->
  In e (es G) ->
  exists s t w,
    In (s, t, w) edge_list
    /\ index_of s (vs G) 0 = Some (e_source e)
    /\ index_of t (vs G) 0 = Some (e_target e)
    /\ weight e = w.
Proof.
  intros HG Hin. apply gene_graph_edges in HG as [_ Hres].
  apply resolve_edges_Forall2 in Hres.
  apply list_elem_of_In, list_elem_of_lookup in Hin as [k Hk].
  destruct (Forall2_lookup_r _ _ _ _ _ Hres Hk) as ([[s t] w] & Hl & Hs & Ht & Hw).
  exists s, t, w. cbn in Hs, Ht, Hw. repeat split; auto.
  apply list_elem_of_In. eapply list_elem_of_lookup_2. exact Hl.
Qed.

Lemma index_of_inj names a b i :
  index_of a names 0 = Some i -> index_of b names 0 = Some i -> a = b.
Proof.
  intros Ha Hb. apply index_of_Some in Ha as [_ Ha], Hb as [_ Hb]. congruence.
Qed.

(** The level the loop assigns, for every run that returns. *)
Lemma level_formula edge_list (initial_levels : gmap string Q) source_gene
    (modified_level : Q) (max_depth : Z) (new_levels : gmap string Q) :
  compute_gene_effect edge_list initial_levels source_gene modified_level max_depth
  = Returns new_levels ->
  exists G source_vid,
    gene_graph edge_list initial_levels = Returns G
    /\ vs_find G source_gene = Returns source_vid
    /\ new_levels !! source_gene = Some modified_level
    /\ forall name,
         name <> source_gene ->
         name ∈ dom initial_levels \/ endpoint edge_list name ->
         new_levels !! name
         = Some (default 0 (initial_levels !! name)
                 + (modified_level - default 0 (initial_levels !! source_gene))
                   * target_influence G source_vid max_depth name).
Proof.
  intros Hret.
  pose proof (returns_known_source _ _ _ _ _ _ Hret) as Hsrc.
  destruct (compute_gene_effect_spec edge_list initial_levels source_gene
              modified_level max_depth Hsrc)
    as (G & sv & m & HG & Hsv & Hm & Hs & Hother & _).
  rewrite Hm in Hret. injection Hret as <-.
  exists G, sv. repeat split; auto.
  intros name Hne Hknown. now apply Hother, known_gene.
Qed.

(** ** Genes that nothing regulates, null perturbations, null depths *)

(** X2: a gene other than the perturbed one that is the target of no edge
    of the edge list keeps its baseline level (0 if it has none), whatever
    the perturbation and the depth. *)
Theorem no_incoming_edge_keeps_baseline edge_list (initial_levels : gmap string Q)
    (source_gene : string) (modified_level : Q) (max_depth : Z)
    (new_levels : gmap string Q) (name : string) :
  compute_gene_effect edge_list initial_levels source_gene modified_level max_depth
  = Returns new_levels ->
  name <> source_gene ->
  name ∈ dom initial_levels \/ endpoint edge_list name ->
  (forall s t w, In (s, t, w) edge_list -> t <> name) ->
  has_level new_levels name (default 0 (initial_levels !! name)).
Proof.
  intros Hret Hne Hknown Hnoin.
  destruct (level_formula _ _ _ _ _ _ Hret) as (G & sv & HG & _ & _ & Hl).
  eexists. split; [apply Hl; assumption|].
  assert (Hz : target_influence G sv max_depth name == 0).
  { unfold target_influence, vs_find.
    destruct (index_of name (vs G) 0) as [tv|] eqn:Htv; [|reflexivity].
    apply walk_sum_no_incoming. intros e Hin Heq.
    destruct (gene_graph_edge_origin _ _ _ _ HG Hin) as (s & t & w & Hel & _ & Ht & _).
    rewrite Heq in Ht. apply (Hnoin s t w Hel). eapply index_of_inj; eauto. }
  rewrite Hz. ring.
Qed.

Lemma no_incoming_edge_keeps_baseline_witness :
  exists new_levels,
    compute_gene_effect EDGES INITIAL_LEVELS "4" 3 6 = Returns new_levels
    /\ has_level new_levels "2" (default 0 (INITIAL_LEVELS !! "2"%string)).
Proof.
  eexists. split; [vm_compute; reflexivity|].
  apply (no_incoming_edge_keeps_baseline EDGES INITIAL_LEVELS "4" 3 6).
  - vm_compute. reflexivity.
  - discriminate.
  - left. apply elem_of_dom. vm_compute. eauto.
  - intros s t w Hin. unfold EDGES in Hin.
    repeat (destruct Hin as [Heq|Hin]; [injection Heq as <- <- <-; discriminate|]).
    destruct Hin.
Defined.

(** X3: forcing the perturbed gene to its own baseline level (0 if it has
    none) changes nothing: every gene of the result has its baseline
    level. *)
Theorem null_perturbation edge_list (initial_levels : gmap string Q)
    (source_gene : string) (modified_level : Q) (max_depth : Z)
    (new_levels : gmap string Q) (name : string) :
  compute_gene_effect edge_list initial_levels source_gene modified_level max_depth
  = Returns new_levels ->
  modified_level == default 0 (initial_levels !! source_gene) ->
  name ∈ dom initial_levels \/ endpoint edge_list name ->
  has_level new_levels name (default 0 (initial_levels !! name)).
Proof.
  intros Hret Hnull Hknown.
  destruct (level_formula _ _ _ _ _ _ Hret) as (G & sv & _ & _ & Hs & Hl).
  destruct (decide (name = source_gene)) as [->|Hne].
  - eexists. split; [exact Hs|exact Hnull].
  - eexists. split; [apply Hl; assumption|]. rewrite Hnull. ring.
Qed.

Lemma null_perturbation_witness :
  exists new_levels,
    compute_gene_effect EDGES INITIAL_LEVELS "1" (2 # 2) 4 = Returns new_levels
    /\ has_level new_levels "7" (default 0 (INITIAL_LEVELS !! "7"%string)).
Proof.
  eexists. split; [vm_compute; reflexivity|].
  apply (null_perturbation EDGES INITIAL_LEVELS "1" (2 # 2) 4).
  - vm_compute. reflexivity.
  - reflexivity.
  - left. apply elem_of_dom. vm_compute. eauto.
Defined.

(** X4: the only exception [compute_gene_effect] lets through is the
    [ValueError] of the lookup of the perturbed gene, and it is raised
    exactly when that gene is neither a key of [initial_levels] nor an
    endpoint of an edge. *)
Theorem raises_only_for_unknown_source edge_list (initial_levels : gmap string Q)
    (source_gene : string) (modified_level : Q) (max_depth : Z) (e : exn) :
  compute_gene_effect edge_list initial_levels source_gene modified_level max_depth
  = Raises e
  <-> e = ValueError
      /\ ~ (source_gene ∈ dom initial_levels \/ endpoint edge_list source_gene).
Proof.
  rewrite <- elem_of_all_gene_names. split.
  - intros Hr.
    destruct (decide (source_gene ∈ all_gene_names edge_list initial_levels))
      as [Hin|Hnin].
    + destruct (compute_gene_effect_spec edge_list initial_levels source_gene
                  modified_level max_depth Hin) as (_ & _ & m & _ & _ & Hm & _).
      rewrite Hm in Hr. discriminate.
    + rewrite compute_gene_effect_unknown_source in Hr by assumption.
      injection Hr as <-. auto.
  - intros [-> Hnin]. now apply compute_gene_effect_unknown_source.
Qed.

(** X5: with [max_depth] below 1 nothing propagates: the perturbed gene
    gets its forced level and every other gene its baseline level. *)
Theorem no_propagation_below_depth_one edge_list (initial_levels : gmap string Q)
    (source_gene : string) (modified_level : Q) (max_depth : Z)
    (new_levels : gmap string Q) (name : string) :
  compute_gene_effect edge_list initial_levels source_gene modified_level max_depth
  = Returns new_levels ->
  (max_depth < 1)%Z ->
  name ∈ dom initial_levels \/ endpoint edge_list name ->
  new_levels !! source_gene = Some modified_level
  /\ (name <> source_gene ->
      has_level new_levels name (default 0 (initial_levels !! name))).
Proof.
  intros Hret Hd Hknown.
  destruct (level_formula _ _ _ _ _ _ Hret) as (G & sv & _ & _ & Hs & Hl).
  split; [exact Hs|]. intros Hne.
  eexists. split; [apply Hl; assumption|].
  unfold target_influence. rewrite levels_zero by lia.
  destruct (vs_find G name); cbn [walk_sum]; ring.
Qed.

Lemma no_propagation_below_depth_one_witness :
  exists new_levels,
    compute_gene_effect EDGES INITIAL_LEVELS "1" 1.5 0 = Returns new_levels
    /\ new_levels !! "1"%string = Some 1.5
    /\ ("4"%string <> "1"%string ->
        has_level new_levels "4" (default 0 (INITIAL_LEVELS !! "4"%string))).
Proof.
  eexists. split; [vm_compute; reflexivity|].
  apply (no_propagation_below_depth_one EDGES INITIAL_LEVELS "1" 1.5 0).
  - vm_compute. reflexivity.
  - lia.
  - left. apply elem_of_dom. vm_compute. eauto.
Defined.

(** ** Activating networks *)

Lemma gene_graph_nonneg edge_list (initial_levels : gmap string Q) G :
  gene_graph edge_list initial_levels = Returns G ->
  (forall s t w, In (s, t, w) edge_list -> 0 <= w) ->
  nonneg_weights G = true.
Proof.
  intros HG Hw. unfold nonneg_weights. apply forallb_forall. intros e Hin.
  destruct (gene_graph_edge_origin _ _ _ _ HG Hin) as (s & t & w & Hel & _ & _ & ->).
  apply Qle_bool_iff. eauto.
Qed.

Lemma target_influence_nonneg G sv md name :
  nonneg_weights G = true -> 0 <= target_influence G sv md name.
Proof.
  intros Hnn. unfold target_influence. destruct (vs_find G name); [|lra].
  rewrite walk_sum_influence. apply sum_over_nonneg.
  intros k _. now apply influence_at_nonneg.
Qed.

(** X7: when no edge weight is negative, the result is monotone in the
    forced level: raising [modified_level] lowers the new level of no
    gene. *)
Theorem monotone_in_modified_level edge_list (initial_levels : gmap string Q)
    (source_gene : string) (m1 m2 : Q) (max_depth : Z)
    (levels1 levels2 : gmap string Q) (name : string) :
  (forall s t w, In (s, t, w) edge_list -> 0 <= w) ->
  m1 <= m2 ->
  compute_gene_effect edge_list initial_levels source_gene m1 max_depth
  = Returns levels1 ->
  compute_gene_effect edge_list initial_levels source_gene m2 max_depth
  = Returns levels2 ->
  name ∈ dom initial_levels \/ endpoint edge_list name ->
  exists v1 v2,
    levels1 !! name = Some v1 /\ levels2 !! name = Some v2 /\ v1 <= v2.
Proof.
  intros Hw Hle H1 H2 Hknown.
  destruct (level_formula _ _ _ _ _ _ H1) as (G & sv & HG & Hsv & Hs1 & Hl1).
  destruct (level_formula _ _ _ _ _ _ H2) as (G' & sv' & HG' & Hsv' & Hs2 & Hl2).
  rewrite HG in HG'. injection HG' as <-.
  rewrite Hsv in Hsv'. injection Hsv' as <-.
  destruct (decide (name = source_gene)) as [->|Hne].
  - eexists _, _. split; [exact Hs1|]. split; [exact Hs2|exact Hle].
  - eexists _, _. split; [apply Hl1; assumption|]. split; [apply Hl2; assumption|].
    pose proof (target_influence_nonneg G sv max_depth name
                  (gene_graph_nonneg _ _ _ HG Hw)) as Hti.
    apply Qplus_le_r. apply Qmult_le_compat_r; [lra|exact Hti].
Qed.

Lemma monotone_in_modified_level_witness :
  exists levels1 levels2,
    compute_gene_effect EDGES INITIAL_LEVELS "1" 1.5 3 = Returns levels1
    /\ compute_gene_effect EDGES INITIAL_LEVELS "1" 2.5 3 = Returns levels2
    /\ exists v1 v2,
         levels1 !! "3"%string = Some v1 /\ levels2 !! "3"%string = Some v2 /\ v1 <= v2.
Proof.
  eexists _, _. split; [vm_compute; reflexivity|]. split; [vm_compute; reflexivity|].
  apply (monotone_in_modified_level EDGES INITIAL_LEVELS "1" 1.5 2.5 3).
  - intros s t w Hin. unfold EDGES in Hin.
    repeat (destruct Hin as [Heq|Hin]; [injection Heq as <- <- <-; discriminate|]).
    destruct Hin.
  - discriminate.
  - vm_compute. reflexivity.
  - vm_compute. reflexivity.
  - left. apply elem_of_dom. vm_compute. eauto.
Defined.

(** ** What the enumeration computes when edges are repeated *)

Lemma sum_over_count {A : Type} (b : A -> bool) (c : Q) (l : list A) :
  sum_over (fun x => if b x then c else 0) l
  == inject_Z (Z.of_nat (length (List.filter b l))) * c.
Proof.
  induction l as [|x l IH]; [rewrite sum_over_nil; cbn; ring|].
  rewrite sum_over_cons, IH. cbn [List.filter]. destruct (b x); [|ring].
  cbn [length]. rewrite Nat2Z.inj_succ. unfold Z.succ. rewrite inject_Z_plus.
  change (inject_Z 1) with 1. ring.
Qed.

Lemma successors_effective G v (f : nat -> Q) :
  well_formed G = true ->
  sum_over (fun nb => edge_weight G v nb * f nb) (successors G v)
  == sum_over (fun j => effective_adjacency G v j * f j) (seq 0 (vcount G)).
Proof.
  intros Hwf. unfold successors. rewrite sum_over_map, sum_over_filter.
  transitivity
    (sum_over (fun j => sum_over
       (fun e => if Nat.eqb (e_source e) v
                 then (if Nat.eqb (e_target e) j then edge_weight G v j * f j else 0)
                 else 0) (es G)) (seq 0 (vcount G))).
  - rewrite <- sum_over_swap. apply sum_over_ext. intros e Hin.
    destruct (Nat.eqb (e_source e) v).
    + symmetry.
      apply (sum_over_pick (fun j => edge_weight G v j * f j) (e_target e)).
      * apply seq_NoDup.
      * now apply well_formed_target.
    + symmetry. apply sum_over_zero. reflexivity.
  - apply sum_over_ext. intros j _.
    unfold effective_adjacency, edge_count.
    rewrite <- Qmult_assoc, <- sum_over_count.
    apply sum_over_ext. intros e _.
    destruct (Nat.eqb (e_source e) v), (Nat.eqb (e_target e) j); reflexivity.
Qed.

Lemma influence_at_effective G k :
  well_formed G = true ->
  forall v t, influence_at G k v t
              == mat_pow (vcount G) (effective_adjacency G) k v t.
Proof.
  intros Hwf. induction k as [|k IH]; intros v t; [reflexivity|].
  cbn [influence_at mat_pow]. unfold mat_mul.
  rewrite successors_effective by assumption.
  apply sum_over_ext. intros j _. now rewrite IH.
Qed.

(** X6: on every graph, parallel edges included, the influence computed
    with depth [D] is the entry of [M^1 + ... + M^D], where the entry
    [(i, j)] of [M] is the weight of the one edge [get_eid] retrieves for
    [(i, j)] multiplied by the number of edges from [i] to [j]. *)
Theorem influence_with_parallel_edges G (source target : nat) (D : Z) :
  well_formed G = true ->
  exists v,
    get_total_influence G source target 1 D 1 = Returns v
    /\ v == power_sum (vcount G) (effective_adjacency G) (Z.to_nat D) source target.
Proof.
  intros Hwf. eexists. rewrite get_total_influence_walk_sum.
  split; [reflexivity|].
  unfold levels. replace (D + 1 - 1)%Z with D by lia.
  rewrite walk_sum_influence. unfold power_sum.
  apply sum_over_ext. intros k _. now apply influence_at_effective.
Qed.

Lemma influence_with_parallel_edges_witness :
  well_formed parallel_graph_swapped = true
  /\ exists v,
       get_total_influence parallel_graph_swapped 0 1 1 3 1 = Returns v
       /\ v == power_sum (vcount parallel_graph_swapped)
                         (effective_adjacency parallel_graph_swapped)
                         (Z.to_nat 3) 0 1.
Proof.
  split; [reflexivity|].
  apply (influence_with_parallel_edges parallel_graph_swapped 0 1 3). reflexivity.
Defined.

(** X8: the graph [compute_gene_effect] builds always exists; its vertices
    are, without repetition, the keys of [initial_levels] and the edge
    endpoints; it has one edge per triple of the edge list, in the same
    order, whose end vertices carry the triple's names and whose weight is
    the triple's weight. *)
Theorem gene_graph_faithful edge_list (initial_levels : gmap string Q) :
  exists G,
    gene_graph edge_list initial_levels = Returns G
    /\ NoDup (vs G)
    /\ (forall name, name ∈ vs G <->
                     name ∈ dom initial_levels \/ endpoint edge_list name)
    /\ length (es G) = length edge_list
    /\ forall k s t w,
         edge_list !! k = Some (s, t, w) ->
         exists e, es G !! k = Some e
                   /\ vs G !! e_source e = Some s
                   /\ vs G !! e_target e = Some t
                   /\ weight e = w.
Proof.
  destruct (gene_graph_ok edge_list initial_levels) as (G & HG & Hvs).
  exists G. split; [exact HG|].
  destruct (gene_graph_edges _ _ _ HG) as [_ Hres].
  apply resolve_edges_Forall2 in Hres.
  split; [rewrite Hvs; apply NoDup_elements|].
  split; [intros name; rewrite Hvs, elem_of_elements; apply elem_of_all_gene_names|].
  split; [symmetry; eapply Forall2_length; exact Hres|].
  intros k s t w Hk.
  destruct (Forall2_lookup_l _ _ _ _ _ Hres Hk) as (e & He & Hs & Ht & Hw).
  cbn in Hs, Ht, Hw. exists e. split; [exact He|].
  apply index_of_Some in Hs as [_ Hs], Ht as [_ Ht].
  rewrite Nat.sub_0_r in Hs, Ht. auto.
Qed.

(** ** The order of the edges *)

Lemma existsb_same_ends e l :
  existsb (same_ends e) l = true <-> In (ends e) (map ends l).
Proof.
  rewrite existsb_exists, in_map_iff. unfold same_ends, ends.
  split; intros (x & H1 & H2); exists x.
  - apply andb_prop in H2 as [Hs Ht]. apply Nat.eqb_eq in Hs, Ht.
    split; [congruence|exact H1].
  - injection H1 as Hs Ht. split; [exact H2|].
    now rewrite Hs, Ht, !Nat.eqb_refl.
Qed.

Lemma no_parallel_NoDup l :
  no_parallel l = true <-> List.NoDup (map ends l).
Proof.
  induction l as [|e l IH]; cbn [no_parallel map].
  - split; [constructor|reflexivity].
  - rewrite andb_true_iff, negb_true_iff, IH, List.NoDup_cons_iff.
    rewrite <- existsb_same_ends.
    destruct (existsb (same_ends e) l); split; intros [H1 H2];
      split; auto; try discriminate; try congruence.
Qed.

Lemma no_parallel_Permutation l l' :
  Permutation l l' -> no_parallel l = true -> no_parallel l' = true.
Proof.
  intros Hp. rewrite !no_parallel_NoDup.
  apply Permutation_NoDup. now apply Permutation_map.
Qed.

Lemma successors_sum G v (h : nat -> Q) :
  sum_over h (successors G v)
  == sum_over (fun e => if Nat.eqb (e_source e) v then h (e_target e) else 0) (es G).
Proof. unfold successors. now rewrite sum_over_map, sum_over_filter. Qed.

Lemma influence_at_Permutation G G' k :
  Permutation (es G) (es G') -> no_parallel (es G) = true ->
  forall v t, influence_at G k v t == influence_at G' k v t.
Proof.
  intros Hp Hnp.
  pose proof (no_parallel_Permutation _ _ Hp Hnp) as Hnp'.
  induction k as [|k IH]; intros v t; [reflexivity|].
  cbn [influence_at]. rewrite !successors_sum.
  rewrite (sum_over_Permutation _ _ _ Hp).
  apply sum_over_ext. intros e Hin'.
  destruct (Nat.eqb_spec (e_source e) v) as [<-|_]; [|reflexivity].
  assert (Hin : In e (es G)) by (eapply Permutation_in; [symmetry; exact Hp|exact Hin']).
  rewrite (edge_weight_simple G e Hnp Hin), (edge_weight_simple G' e Hnp' Hin'), IH.
  reflexivity.
Qed.

(** X9: on a graph without parallel edges the result of
    [get_total_influence] does not depend on the order (the ids) of the
    edges: two graphs whose edge sequences are permutations of each other
    give equal results for every query. *)
Theorem edge_order_irrelevant G G' (current target : nat) (p : Q)
    (max_depth current_depth : Z) :
  Permutation (es G) (es G') ->
  no_parallel (es G) = true ->
  exists v v',
    get_total_influence G current target p max_depth current_depth = Returns v
    /\ get_total_influence G' current target p max_depth current_depth = Returns v'
    /\ v == v'.
Proof.
  intros Hp Hnp. eexists _, _. rewrite !get_total_influence_walk_sum.
  split; [reflexivity|]. split; [reflexivity|].
  rewrite (walk_sum_homogeneous G), (walk_sum_homogeneous G'), !walk_sum_influence.
  apply Qmult_comp; [reflexivity|].
  apply sum_over_ext. intros k _. now apply influence_at_Permutation.
Qed.

Lemma edge_order_irrelevant_witness :
  exists v v',
    get_total_influence activated_loop 0 2 (3 # 2) 6 1 = Returns v
    /\ get_total_influence
         (mkGraph ["s"; "c"; "t"]%string
                  [mkEdge 1 2 (1 # 3); mkEdge 0 1 (1 # 2); mkEdge 1 1 1])
         0 2 (3 # 2) 6 1 = Returns v'
    /\ v == v'.
Proof.
  apply (edge_order_irrelevant activated_loop
           (mkGraph ["s"; "c"; "t"]%string
                    [mkEdge 1 2 (1 # 3); mkEdge 0 1 (1 # 2); mkEdge 1 1 1])
           0 2 (3 # 2) 6 1).
  - cbn [es activated_loop].
    apply (Permutation_cons_app [mkEdge 1 2 (1 # 3)] [mkEdge 1 1 1]).
    apply perm_swap.
  - reflexivity.
Defined.

(** ** Graphs without cycles *)

Lemma influence_at_beyond_rank G (rank : nat -> nat) :
  (forall e, In e (es G) -> (rank (e_target e) < rank (e_source e))%nat) ->
  forall k v t, (rank v < k)%nat -> influence_at G k v t == 0.
Proof.
  intros Hrank. induction k as [|k IH]; intros v t Hk; [lia|].
  cbn [influence_at]. apply sum_over_zero. intros nb Hnb.
  apply in_successors in Hnb as (e & Hin & Hs & Ht).
  apply Hrank in Hin. rewrite Hs, Ht in Hin.
  rewrite IH by lia. ring.
Qed.

(** X10: if the vertices can be ranked so that every edge goes to a vertex
    of strictly lower rank (the graph has no cycle), the influence of
    [source] on any target no longer changes once [max_depth] has reached
    the rank of [source]. *)
Theorem depth_saturates G (rank : nat -> nat) (source target : nat) (D : Z) :
  (forall e, In e (es G) -> (rank (e_target e) < rank (e_source e))%nat) ->
  (Z.of_nat (rank source) <= D)%Z ->
  exists v v',
    get_total_influence G source target 1 D 1 = Returns v
    /\ get_total_influence G source target 1 (Z.of_nat (rank source)) 1 = Returns v'
    /\ v == v'.
Proof.
  intros Hrank HD. eexists _, _. rewrite !get_total_influence_walk_sum.
  split; [reflexivity|]. split; [reflexivity|].
  rewrite !walk_sum_influence. unfold levels.
  replace (Z.to_nat (D + 1 - 1))
    with (rank source + (Z.to_nat D - rank source))%nat by lia.
  replace (Z.to_nat (Z.of_nat (rank source) + 1 - 1)) with (rank source) by lia.
  rewrite seq_app, sum_over_app.
  rewrite (sum_over_zero _ (seq _ (Z.to_nat D - rank source))); [ring|].
  intros k Hk. apply in_seq in Hk.
  apply (influence_at_beyond_rank G rank Hrank). lia.
Qed.

Lemma depth_saturates_witness :
  exists v v',
    get_total_influence ranked_graph 0 2 1 9 1 = Returns v
    /\ get_total_influence ranked_graph 0 2 1
         (Z.of_nat ((fun v => 2 - v)%nat 0%nat)) 1 = Returns v'
    /\ v == v'.
Proof.
  apply (depth_saturates ranked_graph (fun v => 2 - v)%nat 0 2 9).
  - intros e [<-|[<-|[<-|[]]]]; cbn; lia.
  - cbn. lia.
Defined.

(** ** How the depth enters *)

(** X11: only the difference between [max_depth] and [current_depth]
    matters: shifting both by the same integer changes nothing (a query
    started at depth 0 with bound [D] is the query started at depth 1 with
    bound [D + 1]). *)
Theorem depth_shift G (current target : nat) (p : Q)
    (max_depth current_depth shift : Z) :
  get_total_influence G current target p (max_depth + shift) (current_depth + shift)
  = get_total_influence G current target p max_depth current_depth.
Proof.
  rewrite !get_total_influence_walk_sum. unfold levels.
  now replace (max_depth + shift + 1 - (current_depth + shift))%Z
    with (max_depth + 1 - current_depth)%Z by lia.
Qed.

(** X12: for [D >= 1] the influence of [source] on [target] at depth [D]
    is made of the first step and of the influences of the successors at
    depth [D - 1]: it is the sum, over the successors [nb] of [source]
    (one term per edge), of the weight read for [(source, nb)] times
    [1 + influence(nb, target, D - 1)] if [nb] is the target, and times
    [influence(nb, target, D - 1)] otherwise. *)
Theorem first_step_decomposition G (source target : nat) (D : Z) :
  (1 <= D)%Z ->
  exists (v : Q) (rest : nat -> Q),
    get_total_influence G source target 1 D 1 = Returns v
    /\ (forall nb, get_total_influence G nb target 1 (D - 1) 1 = Returns (rest nb))
    /\ v == sum_over
              (fun nb => edge_weight G source nb
                         * ((if Nat.eqb nb target then 1 else 0) + rest nb))
              (successors G source).
Proof.
  intros HD.
  exists (walk_sum G (levels D 1) source target 1),
         (fun nb => walk_sum G (levels (D - 1) 1) nb target 1).
  split; [apply get_total_influence_walk_sum|].
  split; [intros nb; apply get_total_influence_walk_sum|].
  replace (levels D 1) with (S (levels (D - 1) 1)) by (unfold levels; lia).
  rewrite walk_sum_step. apply sum_over_ext. intros nb _.
  rewrite walk_sum_homogeneous. destruct (Nat.eqb nb target); ring.
Qed.

Lemma first_step_decomposition_witness :
  exists (v : Q) (rest : nat -> Q),
    get_total_influence activated_loop 0 2 1 5 1 = Returns v
    /\ (forall nb, get_total_influence activated_loop nb 2 1 (5 - 1) 1
                   = Returns (rest nb))
    /\ v == sum_over
              (fun nb => edge_weight activated_loop 0 nb
                         * ((if Nat.eqb nb 2 then 1 else 0) + rest nb))
              (successors activated_loop 0).
Proof. apply (first_step_decomposition activated_loop 0 2 5). lia. Defined.
